(** * Nimiq core: the per-peer network agent and the Hash primitive

    A shallow embedding of [NetworkAgent.js] (handshake, address relay,
    connectivity check) and of the [Hash] primitive, with the properties
    of the specification stated and proved over it. *)

From stdpp Require Import base option list strings pretty gmap fin_maps.
From Stdlib Require Import ZArith Lia.
From Stdlib.Strings Require Import Byte.

Open Scope Z_scope.

(** ** Exceptions and results *)

(** What a JavaScript routine can throw in the modelled code. *)
Inductive Exn :=
| AssertionError   (* Assert.that(false) *)
| TypeError        (* property access on null / undefined *)
| RangeError       (* typed-array write out of bounds *)
| InvalidLength.   (* Primitive: Invalid length *)

Inductive Res (A : Type) :=
| Ok (a : A)
| Throw (e : Exn).
Arguments Ok {A} a.
Arguments Throw {A} e.

(** ** The Hash primitive *)

Module HashPrimitive.

Abbreviation byte := Byte.byte.

(** [Hash] is written against two classes of other files: [Buffer], a
    byte array with read and write cursors, and [Primitive], the
    fixed-length byte array that [Hash] extends. What [Hash] calls of
    them is this interface. *)
Class Serialization := {
  Buffer : Type;
  (** [new Buffer(n)] *)
  Buffer_new : nat → Buffer;
  (** [buf.byteLength] *)
  byteLength : Buffer → nat;
  (** [buf.write(array)] *)
  Buffer_write : Buffer → list byte → Res Buffer;
  (** [buf.read(length)]: the bytes read, and the buffer moved on *)
  Buffer_read : Buffer → nat → Res (list byte * Buffer);
  (** [new Primitive(arg, length)]: the bytes of the new value *)
  Primitive_new : option (list byte) → nat → Res (list byte)
}.

(** What [Hash] relies on: an array written to a fresh buffer of its
    length fills that buffer and is read back from it. *)
Definition Buffer_lawful `{Serialization} : Prop :=
  ∀ array : list byte,
    ∃ buf buf',
      Buffer_write (Buffer_new (length array)) array = Ok buf
      ∧ byteLength buf = length array
      ∧ Buffer_read buf (length array) = Ok (array, buf').

(** ... and the constructor takes a byte array of the required length
    as it is. *)
Definition Primitive_lawful `{Serialization} : Prop :=
  ∀ array : list byte, Primitive_new (Some array) (length array) = Ok array.

(** [class Hash extends Primitive]: a Hash is its bytes. *)
Record Hash := mkHash { hash_bytes : list byte }.

Definition SERIALIZED_SIZE : nat := 32.

(** [constructor(arg) { super(arg, Hash.SERIALIZED_SIZE); }] *)
Definition Hash_new `{Serialization} (arg : option (list byte)) : Res Hash :=
  match Primitive_new arg SERIALIZED_SIZE with
  | Ok b => Ok (mkHash b)
  | Throw e => Throw e
  end.

Definition serializedSize (h : Hash) : nat := SERIALIZED_SIZE.

(** [static unserialize(buf)] returns the hash; the buffer has moved on. *)
Definition unserialize `{Serialization} (buf : Buffer) : Res (Hash * Buffer) :=
  match Buffer_read buf SERIALIZED_SIZE with
  | Ok (v, buf') =>
      match Hash_new (Some v) with
      | Ok h => Ok (h, buf')
      | Throw e => Throw e
      end
  | Throw e => Throw e
  end.

(** [serialize(buf)]: [buf = buf || new Buffer(this.serializedSize)]. *)
Definition serialize `{Serialization} (h : Hash) (buf : option Buffer) : Res Buffer :=
  let buf := default (Buffer_new (serializedSize h)) buf in
  Buffer_write buf (hash_bytes h).

(** The 32-byte values. *)
Definition Hash_wf (h : Hash) : Prop := length (hash_bytes h) = SERIALIZED_SIZE.

Global Instance byte_eq_dec : EqDecision byte := Byte.byte_eq_dec.
Global Instance Hash_eq_dec : EqDecision Hash.
Proof. solve_decision. Defined.

End HashPrimitive.
Export HashPrimitive.

(** ** Data the agent handles *)

Definition PeerId := N.
Definition PublicKey := N.
Definition PrivateKey := N.
Definition Signature := N.

(** [Protocol.DUMB], [Protocol.WS], [Protocol.RTC]. *)
Inductive Protocol := DUMB | WS | RTC.

Global Instance Protocol_eq_dec : EqDecision Protocol.
Proof. solve_decision. Defined.

(** A peer address record, with the attributes the agent reads. *)
Record PeerAddress := mkPeerAddress {
  protocol : Protocol;
  services : N;
  timestamp : Z;
  netAddress : option N;
  publicKey : PublicKey;
  peerId : PeerId;
  distance : Z;
  signature : Signature
}.

Definition set_netAddress (n : option N) (p : PeerAddress) : PeerAddress :=
  mkPeerAddress (protocol p) (services p) (timestamp p) n (publicKey p)
    (peerId p) (distance p) (signature p).

(** [Message.Type] of the six frames the agent listens to. *)
Inductive MsgType := VERSION | VERACK | ADDR | GET_ADDR | PING | PONG.

Global Instance MsgType_eq_dec : EqDecision MsgType.
Proof. solve_decision. Defined.

Record VersionMessage := mkVersionMessage {
  msg_version : N;
  msg_peerAddress : PeerAddress;
  msg_genesisHash : Hash;
  msg_headHash : Hash;
  msg_challengeNonce : list byte
}.

Record VerAckMessage := mkVerAckMessage {
  msg_publicKey : PublicKey;
  msg_signature : Signature
}.

(** Inbound frames, as the channel hands them to the agent. *)
Inductive Message :=
| MsgVersion (m : VersionMessage)
| MsgVerAck (m : VerAckMessage)
| MsgAddr (addresses : list PeerAddress)
| MsgGetAddr (protocolMask serviceMask : N)
| MsgPing (nonce : N)
| MsgPong (nonce : N).

Definition msg_type (m : Message) : MsgType :=
  match m with
  | MsgVersion _ => VERSION
  | MsgVerAck _ => VERACK
  | MsgAddr _ => ADDR
  | MsgGetAddr _ _ => GET_ADDR
  | MsgPing _ => PING
  | MsgPong _ => PONG
  end.

(** Outbound frames: the channel's emit methods. *)
Inductive Frame :=
| FVersion (peerAddress : PeerAddress) (headHash : Hash) (challengeNonce : list byte)
| FVerAck (publicKey : PublicKey) (signature : Signature)
| FAddr (addresses : list PeerAddress)
| FGetAddr (protocolMask serviceMask : N)
| FPing (nonce : N)
| FPong (nonce : N).

Definition frame_type (f : Frame) : MsgType :=
  match f with
  | FVersion _ _ _ => VERSION
  | FVerAck _ _ => VERACK
  | FAddr _ => ADDR
  | FGetAddr _ _ => GET_ADDR
  | FPing _ => PING
  | FPong _ => PONG
  end.

(** The close reasons this component uses. *)
Module CloseType.
Inductive t :=
| SENDING_OF_VERSION_MESSAGE_FAILED
| VERSION_TIMEOUT
| VERACK_TIMEOUT
| INCOMPATIBLE_VERSION
| DIFFERENT_GENESIS_BLOCK
| INVALID_PEER_ADDRESS_IN_VERSION_MESSAGE
| UNEXPECTED_PEER_ADDRESS_IN_VERSION_MESSAGE
| INVALID_PUBLIC_KEY_IN_VERACK_MESSAGE
| INVALID_SIGNATURE_IN_VERACK_MESSAGE
| ADDR_MESSAGE_TOO_LARGE
| RATE_LIMIT_EXCEEDED
| INVALID_ADDR
| ADDR_NOT_GLOBALLY_REACHABLE
| SENDING_PING_MESSAGE_FAILED
| PING_TIMEOUT.
End CloseType.

(** [new Peer(channel, version, headHash, timeOffset)]. *)
Record Peer := mkPeer {
  peer_version : N;
  peer_headHash : Hash;
  peer_timeOffset : Z
}.

(** ** Constants *)

Module NetworkAgent.
Definition HANDSHAKE_TIMEOUT : Z := 1000 * 4.
Definition PING_TIMEOUT : Z := 1000 * 10.
Definition CONNECTIVITY_CHECK_INTERVAL : Z := 1000 * 60.
Definition ANNOUNCE_ADDR_INTERVAL : Z := 1000 * 60 * 5.
Definition RELAY_THROTTLE : Z := 1000 * 60 * 2.
Definition VERSION_ATTEMPTS_MAX : Z := 10.
Definition VERSION_RETRY_DELAY : Z := 500.
Definition ADDR_RATE_LIMIT : Z := 2000.
Definition ADDR_QUEUE_INTERVAL : Z := 5000.
Definition MAX_ADDR_PER_MESSAGE : nat := 1000.
Definition MAX_ADDR_RELAY_PER_MESSAGE : nat := 10.
End NetworkAgent.

(** ** Collaborators that are not part of the agent

    Address identity, signature checks, version compatibility and the
    address book's distance bound live in other classes; the agent only calls
    them. They are operations of this interface. *)
Class Externals := {
  (** [PeerAddress.hashCode()], the key of the known-address HashSet *)
  hashCode : PeerAddress → string;
  (** [PeerAddress.equals(o)] *)
  PeerAddress_equals : PeerAddress → PeerAddress → bool;
  (** [PeerAddress.verifySignature()] *)
  verifySignature : PeerAddress → bool;
  (** [PeerAddress.isSeed()] *)
  isSeed : PeerAddress → bool;
  (** [PeerAddress.globallyReachable()] *)
  globallyReachable : PeerAddress → bool;
  (** [Version.isCompatible(code)] *)
  Version_isCompatible : N → bool;
  (** [GenesisConfig.GENESIS_HASH] *)
  GENESIS_HASH : Hash;
  (** [Hash.equals(o)] *)
  Hash_equals : Hash → Hash → bool;
  (** [PublicKey.toPeerId()] *)
  toPeerId : PublicKey → PeerId;
  (** [PeerId.serialize()] *)
  PeerId_serialize : PeerId → list byte;
  (** [Signature.create(privateKey, publicKey, data)] *)
  Signature_create : PrivateKey → PublicKey → list byte → Signature;
  (** [signature.verify(publicKey, data)] *)
  Signature_verify : Signature → PublicKey → list byte → bool;
  (** [PeerAddressBook.MAX_DISTANCE] *)
  MAX_DISTANCE : Z;
  (** [ThrottledQueue]: the overall size cap of a queue constructed with the
      given arguments (the four the agent passes before the callback) *)
  ThrottledQueue_maxSize : nat * nat * Z * Z → nat;
  (** [ThrottledQueue.enqueue] on a queue that is at its size cap: what is
      queued afterwards, given what was queued and the new item *)
  ThrottledQueue_overflow : list PeerAddress → PeerAddress → list PeerAddress
}.

(** ** The agent's state *)

(** [NetworkConfig]: our own address, key pair and masks. *)
Record NetworkConfig := mkNetworkConfig {
  cfg_peerAddress : PeerAddress;
  keyPair_privateKey : PrivateKey;
  keyPair_publicKey : PublicKey;
  cfg_protocolMask : N;
  services_accepted : N
}.

(** The part of the channel the agent reads and writes: the remote address
    (null on an inbound connection until the version message) and whether
    the channel is closed. *)
Record Channel := mkChannel {
  chan_peerAddress : option PeerAddress;
  closed : bool
}.

(** Modelled from the spec: the [Timers] registry, a class of another file.
    Timers are identified by string names; setting a timer under an
    existing name replaces the prior one; closing clears all names. A name
    maps to the delay it was armed with. *)
Record Timers := mkTimers {
  timeouts : gmap string Z;
  intervals : gmap string Z
}.

Definition Timers_new : Timers := mkTimers ∅ ∅.
Definition Timers_setTimeout (key : string) (waitTime : Z) (t : Timers) : Timers :=
  mkTimers (<[key := waitTime]> (timeouts t)) (intervals t).
Definition Timers_clearTimeout (key : string) (t : Timers) : Timers :=
  mkTimers (delete key (timeouts t)) (intervals t).
Definition Timers_setInterval (key : string) (waitTime : Z) (t : Timers) : Timers :=
  mkTimers (timeouts t) (<[key := waitTime]> (intervals t)).
Definition Timers_clearAll (t : Timers) : Timers := Timers_new.

(** Modelled from the spec: the inbound rate limiter [RateLimit], a class of
    another file: a periodic limiter bounding the occurrences noted within
    one window; [note n] charges the whole batch at once and answers
    whether the bound still holds. *)
Record RateLimit := mkRateLimit {
  allowedOccurrences : Z;
  timeRange : Z;
  lastReset : Z;
  counter : Z
}.

Definition RateLimit_new (allowed range : Z) : RateLimit :=
  mkRateLimit allowed range 0 0.

Definition RateLimit_note (number now : Z) (r : RateLimit) : bool * RateLimit :=
  let r1 := if decide (lastReset r < now - timeRange r)
            then mkRateLimit (allowedOccurrences r) (timeRange r) now 0
            else r in
  let c := counter r1 + number in
  (bool_decide (c ≤ allowedOccurrences r1),
   mkRateLimit (allowedOccurrences r1) (timeRange r1) (lastReset r1) c).

(** Modelled from the spec: the throttled relay queue [ThrottledQueue], a
    class of another file: a size-bounded FIFO of pending addresses. It
    keeps the arguments it was constructed with. [enqueue] appends at the
    back while the queue is below its overall size cap; what it does at the
    cap is the class's own ([ThrottledQueue_overflow]). [dequeueMulti count]
    takes up to [count] items from the front, no more than the throttle
    allows at this moment (its allowance and its clock are the
    environment's); [stop] ends its cadence. *)
Record ThrottledQueue := mkThrottledQueue {
  queue : list PeerAddress;
  stopped : bool;
  queue_args : nat * nat * Z * Z
}.

Definition ThrottledQueue_new (maxAtOnce allowanceNum : nat)
    (allowanceInterval maxSize : Z) : ThrottledQueue :=
  mkThrottledQueue [] false (maxAtOnce, allowanceNum, allowanceInterval, maxSize).
Definition ThrottledQueue_enqueue `{Externals} (a : PeerAddress) (q : ThrottledQueue)
  : ThrottledQueue :=
  if bool_decide (length (queue q) < ThrottledQueue_maxSize (queue_args q))%nat
  then mkThrottledQueue (queue q ++ [a]) (stopped q) (queue_args q)
  else mkThrottledQueue (ThrottledQueue_overflow (queue q) a) (stopped q) (queue_args q).
Definition ThrottledQueue_dequeueMulti (count availableNow : nat) (q : ThrottledQueue)
  : list PeerAddress * ThrottledQueue :=
  let n := Nat.min availableNow count in
  (take n (queue q), mkThrottledQueue (drop n (queue q)) (stopped q) (queue_args q)).
Definition ThrottledQueue_stop (q : ThrottledQueue) : ThrottledQueue :=
  mkThrottledQueue (queue q) true (queue_args q).

(** The fields of [NetworkAgent]. The address book and the blockchain are
    collaborators: what they answer is part of the environment below. *)
Record Agent := mkAgent {
  networkConfig : NetworkConfig;
  challengeNonce : list byte;
  channel : Channel;
  peer : option Peer;
  knownAddresses : gmap string PeerAddress;
  timers : Timers;
  versionReceived : bool;
  verackReceived : bool;
  versionSent : bool;
  verackSent : bool;
  versionAttempts : Z;
  peerAddressVerified : bool;
  peerChallengeNonce : option (list byte);
  pingTimes : gmap N Z;
  addrQueue : ThrottledQueue;
  addrLimit : RateLimit
}.

Definition set_channel (v : Channel) (a : Agent) : Agent :=
  mkAgent (networkConfig a) (challengeNonce a) v (peer a) (knownAddresses a)
    (timers a) (versionReceived a) (verackReceived a) (versionSent a)
    (verackSent a) (versionAttempts a) (peerAddressVerified a)
    (peerChallengeNonce a) (pingTimes a) (addrQueue a) (addrLimit a).

Definition set_peer (v : option Peer) (a : Agent) : Agent :=
  mkAgent (networkConfig a) (challengeNonce a) (channel a) v
    (knownAddresses a) (timers a) (versionReceived a) (verackReceived a)
    (versionSent a) (verackSent a) (versionAttempts a) (peerAddressVerified a)
    (peerChallengeNonce a) (pingTimes a) (addrQueue a) (addrLimit a).

Definition set_knownAddresses (v : gmap string PeerAddress) (a : Agent) : Agent :=
  mkAgent (networkConfig a) (challengeNonce a) (channel a) (peer a) v
    (timers a) (versionReceived a) (verackReceived a) (versionSent a)
    (verackSent a) (versionAttempts a) (peerAddressVerified a)
    (peerChallengeNonce a) (pingTimes a) (addrQueue a) (addrLimit a).

Definition set_timers (v : Timers) (a : Agent) : Agent :=
  mkAgent (networkConfig a) (challengeNonce a) (channel a) (peer a)
    (knownAddresses a) v (versionReceived a) (verackReceived a)
    (versionSent a) (verackSent a) (versionAttempts a) (peerAddressVerified a)
    (peerChallengeNonce a) (pingTimes a) (addrQueue a) (addrLimit a).

Definition set_versionReceived (v : bool) (a : Agent) : Agent :=
  mkAgent (networkConfig a) (challengeNonce a) (channel a) (peer a)
    (knownAddresses a) (timers a) v (verackReceived a) (versionSent a)
    (verackSent a) (versionAttempts a) (peerAddressVerified a)
    (peerChallengeNonce a) (pingTimes a) (addrQueue a) (addrLimit a).

Definition set_verackReceived (v : bool) (a : Agent) : Agent :=
  mkAgent (networkConfig a) (challengeNonce a) (channel a) (peer a)
    (knownAddresses a) (timers a) (versionReceived a) v (versionSent a)
    (verackSent a) (versionAttempts a) (peerAddressVerified a)
    (peerChallengeNonce a) (pingTimes a) (addrQueue a) (addrLimit a).

Definition set_versionSent (v : bool) (a : Agent) : Agent :=
  mkAgent (networkConfig a) (challengeNonce a) (channel a) (peer a)
    (knownAddresses a) (timers a) (versionReceived a) (verackReceived a) v
    (verackSent a) (versionAttempts a) (peerAddressVerified a)
    (peerChallengeNonce a) (pingTimes a) (addrQueue a) (addrLimit a).

Definition set_verackSent (v : bool) (a : Agent) : Agent :=
  mkAgent (networkConfig a) (challengeNonce a) (channel a) (peer a)
    (knownAddresses a) (timers a) (versionReceived a) (verackReceived a)
    (versionSent a) v (versionAttempts a) (peerAddressVerified a)
    (peerChallengeNonce a) (pingTimes a) (addrQueue a) (addrLimit a).

Definition set_versionAttempts (v : Z) (a : Agent) : Agent :=
  mkAgent (networkConfig a) (challengeNonce a) (channel a) (peer a)
    (knownAddresses a) (timers a) (versionReceived a) (verackReceived a)
    (versionSent a) (verackSent a) v (peerAddressVerified a)
    (peerChallengeNonce a) (pingTimes a) (addrQueue a) (addrLimit a).

Definition set_peerAddressVerified (v : bool) (a : Agent) : Agent :=
  mkAgent (networkConfig a) (challengeNonce a) (channel a) (peer a)
    (knownAddresses a) (timers a) (versionReceived a) (verackReceived a)
    (versionSent a) (verackSent a) (versionAttempts a) v
    (peerChallengeNonce a) (pingTimes a) (addrQueue a) (addrLimit a).

Definition set_peerChallengeNonce (v : option (list byte)) (a : Agent) : Agent :=
  mkAgent (networkConfig a) (challengeNonce a) (channel a) (peer a)
    (knownAddresses a) (timers a) (versionReceived a) (verackReceived a)
    (versionSent a) (verackSent a) (versionAttempts a) (peerAddressVerified a)
    v (pingTimes a) (addrQueue a) (addrLimit a).

Definition set_pingTimes (v : gmap N Z) (a : Agent) : Agent :=
  mkAgent (networkConfig a) (challengeNonce a) (channel a) (peer a)
    (knownAddresses a) (timers a) (versionReceived a) (verackReceived a)
    (versionSent a) (verackSent a) (versionAttempts a) (peerAddressVerified a)
    (peerChallengeNonce a) v (addrQueue a) (addrLimit a).

Definition set_addrQueue (v : ThrottledQueue) (a : Agent) : Agent :=
  mkAgent (networkConfig a) (challengeNonce a) (channel a) (peer a)
    (knownAddresses a) (timers a) (versionReceived a) (verackReceived a)
    (versionSent a) (verackSent a) (versionAttempts a) (peerAddressVerified a)
    (peerChallengeNonce a) (pingTimes a) v (addrLimit a).

Definition set_addrLimit (v : RateLimit) (a : Agent) : Agent :=
  mkAgent (networkConfig a) (challengeNonce a) (channel a) (peer a)
    (knownAddresses a) (timers a) (versionReceived a) (verackReceived a)
    (versionSent a) (verackSent a) (versionAttempts a) (peerAddressVerified a)
    (peerChallengeNonce a) (pingTimes a) (addrQueue a) v.


(** Modelled from the spec: [HashSet.add] and [HashSet.get] of the known
    addresses, a set keyed by address identity: one entry per hash code, a
    later [add] overwrites the prior entry. *)
Definition HashSet_add `{Externals} (addr : PeerAddress)
    (s : gmap string PeerAddress) : gmap string PeerAddress :=
  <[hashCode addr := addr]> s.
Definition HashSet_get `{Externals} (addr : PeerAddress)
    (s : gmap string PeerAddress) : option PeerAddress :=
  s !! hashCode addr.

(** The name of the per-nonce ping timer, [`ping_${nonce}`]. *)
Definition ping_name (nonce : N) : string := "ping_" +:+ pretty nonce.

(** Events the agent fires to its observers, with the arguments it passes:
    'version', 'handshake' and 'addr' are fired with the agent itself
    ([this]) as last argument, so that an observer sees the agent's fields
    as they are when the event fires; [agent] is that state. *)
Inductive ObsEvent :=
| EvVersion (p : option Peer) (agent : Agent)
| EvHandshake (p : option Peer) (agent : Agent)
| EvAddr (addresses : list PeerAddress) (agent : Agent)
| EvPingPong (delta : Z).

(** What a handler does to the outside, in order. [ASend f ok] is a call of
    the channel's emit method for [f] that returned [ok]. *)
Inductive Action :=
| ALog (text : string)
| ASend (f : Frame) (ok : bool)
| AReject (ty : MsgType)
| AClose (ty : CloseType.t)
| AFire (ev : ObsEvent)
| ABookAdd (addresses : list PeerAddress)
| ARetryHandshake (delay : Z).

(** ** The environment of one handler run

    What the outside answers while one handler runs to completion: the
    clock ([Date.now()], one reading for the whole run), the result of each
    emit method of the channel, whether an observer closes the channel on an
    event, the random nonce, the channel's last-message time, the blockchain
    head, the address book's answers and the relay queue's current
    allowance. *)
Record Env := mkEnv {
  now : Z;
  sendOk : Frame → bool;
  listenerCloses : ObsEvent → bool;
  randomUint32 : N;
  lastMessageReceivedAt : Z;
  headHash : Hash;
  book_get : PeerAddress → option PeerAddress;
  book_query : N → N → nat → list PeerAddress;
  availableNow : nat
}.

(** ** The handler monad: state, output, exceptions *)

Definition M (A : Type) : Type := Agent → Res (A * Agent * list Action).

Global Instance M_ret : MRet M := λ A x a, Ok (x, a, []).
Global Instance M_bind : MBind M := λ A B f m a,
  match m a with
  | Ok (x, a1, o1) =>
      match f x a1 with
      | Ok (y, a2, o2) => Ok (y, a2, o1 ++ o2)
      | Throw e => Throw e
      end
  | Throw e => Throw e
  end.

Definition get : M Agent := λ a, Ok (a, a, []).
Definition modify (f : Agent → Agent) : M unit := λ a, Ok (tt, f a, []).
Definition emit (x : Action) : M unit := λ a, Ok (tt, a, [x]).
Definition throw {A} (e : Exn) : M A := λ _, Throw e.

Definition timers_setTimeout (key : string) (waitTime : Z) : M unit :=
  modify (λ a, set_timers (Timers_setTimeout key waitTime (timers a)) a).
Definition timers_clearTimeout (key : string) : M unit :=
  modify (λ a, set_timers (Timers_clearTimeout key (timers a)) a).
Definition timers_setInterval (key : string) (waitTime : Z) : M unit :=
  modify (λ a, set_timers (Timers_setInterval key waitTime (timers a)) a).

(** ** The handlers of [NetworkAgent] *)

Section Handlers.
Context `{Externals}.

(** [_onClose] *)
Definition onClose : M unit :=
  modify (λ a, set_timers (Timers_clearAll (timers a)) a);;
  modify (λ a, set_addrQueue (ThrottledQueue_stop (addrQueue a)) a).

(** Modelled from the spec: the channel going down. It becomes closed and
    emits 'close' once, on which the agent runs [_onClose]. *)
Definition channel_closes : M unit :=
  a ← get;
  if closed (channel a) then mret tt
  else
    modify (λ a, set_channel (mkChannel (chan_peerAddress (channel a)) true) a);;
    onClose.

(** [this._channel.close(type, reason)] *)
Definition channel_close (ty : CloseType.t) : M unit :=
  emit (AClose ty);; channel_closes.

(** An emit method of the channel: the call is recorded with its result. *)
Definition channel_send (env : Env) (f : Frame) : M bool :=
  emit (ASend f (sendOk env f));; mret (sendOk env f).

(** [this.fire(event, ...)]: the observers run; one of them may close the
    connection. *)
Definition fire (env : Env) (ev : ObsEvent) : M unit :=
  emit (AFire ev);;
  if listenerCloses env ev then channel_closes else mret tt.

(** [_canAcceptMessage] *)
Definition canAcceptMessage (ty : MsgType) : M bool :=
  a ← get;
  if negb (versionReceived a) && negb (bool_decide (ty = VERSION)) then
    emit (ALog "Discarding message - no version message received previously");;
    mret false
  else if versionReceived a && negb (verackReceived a)
          && negb (bool_decide (ty = VERACK)) then
    emit (ALog "Discarding message - no verack message received previously");;
    mret false
  else mret true.

(** [relayAddresses] *)
Definition relayAddresses (addresses : list PeerAddress) : M unit :=
  a ← get;
  if negb (verackReceived a) || negb (versionSent a) then mret tt
  else
    modify (λ a, set_addrQueue
                   (foldl (λ q x, ThrottledQueue_enqueue x q) (addrQueue a) addresses) a).

(** The filter of [_relayNow]. *)
Definition relay_filter (env : Env) (known : gmap string PeerAddress)
    (addr : PeerAddress) : bool :=
  if bool_decide (protocol addr = RTC) && bool_decide (MAX_DISTANCE ≤ distance addr)
  then false
  else if bool_decide (protocol addr = DUMB) then false
  else
    negb (isSeed addr)
    && match HashSet_get addr known with
       | None => true
       | Some knownAddress =>
           (bool_decide (protocol addr = RTC)
            && bool_decide (distance addr < distance knownAddress))
           || bool_decide (timestamp knownAddress < now env - NetworkAgent.RELAY_THROTTLE)
       end.

(** [_relayNow] *)
Definition relayNow (env : Env) : M unit :=
  a ← get;
  let '(addresses, q) :=
    ThrottledQueue_dequeueMulti NetworkAgent.MAX_ADDR_RELAY_PER_MESSAGE (availableNow env)
      (addrQueue a) in
  modify (set_addrQueue q);;
  if bool_decide (length addresses = 0%nat) then mret tt
  else
    let filteredAddresses := List.filter (relay_filter env (knownAddresses a)) addresses in
    if bool_decide (length filteredAddresses ≠ 0%nat) then
      channel_send env (FAddr filteredAddresses);;
      modify (λ a, set_knownAddresses
                     (foldl (λ s x, HashSet_add x s) (knownAddresses a)
                        filteredAddresses) a)
    else mret tt.

(** [_sendVerAck] *)
Definition sendVerAck (env : Env) : M unit :=
  a ← get;
  if negb (peerAddressVerified a) then throw AssertionError
  else
    match chan_peerAddress (channel a), peerChallengeNonce a with
    | Some remote, Some nonce =>
        let data := PeerId_serialize (peerId remote) ++ nonce in
        let sig := Signature_create (keyPair_privateKey (networkConfig a))
                     (keyPair_publicKey (networkConfig a)) data in
        channel_send env (FVerAck (keyPair_publicKey (networkConfig a)) sig);;
        modify (set_verackSent true)
    | _, _ => throw TypeError
    end.

(** [handshake] *)
Definition handshake (env : Env) : M unit :=
  a ← get;
  if versionSent a then mret tt
  else
    ok ← channel_send env
           (FVersion (cfg_peerAddress (networkConfig a)) (headHash env)
              (challengeNonce a));
    if negb ok then
      modify (λ a, set_versionAttempts (versionAttempts a + 1) a);;
      a ← get;
      if bool_decide (NetworkAgent.VERSION_ATTEMPTS_MAX ≤ versionAttempts a) || closed (channel a)
      then channel_close CloseType.SENDING_OF_VERSION_MESSAGE_FAILED
      else emit (ARetryHandshake NetworkAgent.VERSION_RETRY_DELAY)
    else
      modify (set_versionSent true);;
      a ← get;
      (if negb (versionReceived a) then
         timers_setTimeout "version" NetworkAgent.HANDSHAKE_TIMEOUT
       else if peerAddressVerified a then sendVerAck env
       else mret tt);;
      timers_setTimeout "verack" (NetworkAgent.HANDSHAKE_TIMEOUT * 2).

(** [_requestAddresses] *)
Definition requestAddresses (env : Env) : M unit :=
  a ← get;
  channel_send env (FGetAddr (cfg_protocolMask (networkConfig a))
                      (services_accepted (networkConfig a)));;
  mret tt.

(** [_finishHandshake] *)
Definition finishHandshake (env : Env) : M unit :=
  timers_setInterval "connectivity" NetworkAgent.CONNECTIVITY_CHECK_INTERVAL;;
  timers_setInterval "announce-addr" NetworkAgent.ANNOUNCE_ADDR_INTERVAL;;
  a ← get;
  fire env (EvHandshake (peer a) a);;
  requestAddresses env.

(** [_onVersion]: the remote may not send its netAddress; it is then taken
    from the address book when the book has it. *)
Definition with_stored_netAddress (env : Env) (peerAddress : PeerAddress)
  : PeerAddress :=
  match netAddress peerAddress with
  | Some _ => peerAddress
  | None =>
      match book_get env peerAddress with
      | Some storedAddress =>
          match netAddress storedAddress with
          | Some n => set_netAddress (Some n) peerAddress
          | None => peerAddress
          end
      | None => peerAddress
      end
  end.

(** The second half of [_onVersion], after the address checks. *)
Definition onVersion_accept (env : Env) (msg : VersionMessage) : M unit :=
  let peerAddress := with_stored_netAddress env (msg_peerAddress msg) in
  modify (λ a, set_channel (mkChannel (Some peerAddress) (closed (channel a))) a);;
  modify (set_peer (Some (mkPeer (msg_version msg) (msg_headHash msg)
                            (timestamp peerAddress - now env))));;
  modify (set_peerChallengeNonce (Some (msg_challengeNonce msg)));;
  modify (set_versionReceived true);;
  a ← get;
  fire env (EvVersion (peer a) a);;
  a ← get;
  if closed (channel a) then mret tt
  else if negb (versionSent a) then handshake env
  else
    (if peerAddressVerified a then sendVerAck env else mret tt);;
    a ← get;
    if verackReceived a then finishHandshake env else mret tt.

(** [_onVersion] *)
Definition onVersion (env : Env) (msg : VersionMessage) : M unit :=
  emit (ALog "[VERSION]");;
  ok ← canAcceptMessage VERSION;
  if negb ok then mret tt
  else
    a ← get;
    if versionReceived a then emit (ALog "Ignoring duplicate version message")
    else
      timers_clearTimeout "version";;
      if negb (Version_isCompatible (msg_version msg)) then
        emit (AReject VERSION);;
        channel_close CloseType.INCOMPATIBLE_VERSION
      else if negb (Hash_equals GENESIS_HASH (msg_genesisHash msg)) then
        channel_close CloseType.DIFFERENT_GENESIS_BLOCK
      else if negb (verifySignature (msg_peerAddress msg)) then
        channel_close CloseType.INVALID_PEER_ADDRESS_IN_VERSION_MESSAGE
      else
        match chan_peerAddress (channel a) with
        | Some expected =>
            if negb (PeerAddress_equals expected (msg_peerAddress msg)) then
              channel_close CloseType.UNEXPECTED_PEER_ADDRESS_IN_VERSION_MESSAGE
            else
              modify (set_peerAddressVerified true);;
              onVersion_accept env msg
        | None => onVersion_accept env msg
        end.

(** [_onVerAck] *)
Definition onVerAck (env : Env) (msg : VerAckMessage) : M unit :=
  emit (ALog "[VERACK]");;
  ok ← canAcceptMessage VERACK;
  if negb ok then mret tt
  else
    a ← get;
    if verackReceived a then emit (ALog "Ignoring duplicate verack message")
    else
      timers_clearTimeout "verack";;
      match chan_peerAddress (channel a) with
      | None => throw TypeError
      | Some remote =>
          if negb (bool_decide (toPeerId (msg_publicKey msg) = peerId remote)) then
            channel_close CloseType.INVALID_PUBLIC_KEY_IN_VERACK_MESSAGE
          else
            let data := PeerId_serialize (peerId (cfg_peerAddress (networkConfig a)))
                          ++ challengeNonce a in
            if negb (Signature_verify (msg_signature msg) (msg_publicKey msg) data) then
              channel_close CloseType.INVALID_SIGNATURE_IN_VERACK_MESSAGE
            else
              (if negb (peerAddressVerified a) then
                 modify (set_peerAddressVerified true);;
                 sendVerAck env
               else mret tt);;
              modify (λ a, set_knownAddresses (HashSet_add remote (knownAddresses a)) a);;
              modify (set_verackReceived true);;
              a ← get;
              if verackSent a then finishHandshake env else mret tt
      end.

(** The loop of [_onAddr] over the batch; answers whether the whole batch
    passed. *)
Fixpoint checkAddresses (addresses : list PeerAddress) : M bool :=
  match addresses with
  | [] => mret true
  | addr :: rest =>
      if negb (verifySignature addr) then
        channel_close CloseType.INVALID_ADDR;; mret false
      else if bool_decide (protocol addr = WS) && negb (globallyReachable addr) then
        channel_close CloseType.ADDR_NOT_GLOBALLY_REACHABLE;; mret false
      else
        modify (λ a, set_knownAddresses (HashSet_add addr (knownAddresses a)) a);;
        checkAddresses rest
  end.

(** [_onAddr] *)
Definition onAddr (env : Env) (addresses : list PeerAddress) : M unit :=
  ok ← canAcceptMessage ADDR;
  if negb ok then mret tt
  else if bool_decide (NetworkAgent.MAX_ADDR_PER_MESSAGE < length addresses)%nat then
    emit (ALog "Rejecting addr message - too many addresses");;
    channel_close CloseType.ADDR_MESSAGE_TOO_LARGE
  else
    a ← get;
    let '(within, limit) :=
      RateLimit_note (Z.of_nat (length addresses)) (now env) (addrLimit a) in
    modify (set_addrLimit limit);;
    if negb within then
      emit (ALog "Rejecting addr message - rate-limit exceeded");;
      channel_close CloseType.RATE_LIMIT_EXCEEDED
    else
      passed ← checkAddresses addresses;
      if negb passed then mret tt
      else
        emit (ABookAdd addresses);;
        a ← get;
        fire env (EvAddr addresses a).

(** The filter of [_onGetAddr]. *)
Definition getAddr_filter (env : Env) (known : gmap string PeerAddress)
    (addr : PeerAddress) : bool :=
  if bool_decide (protocol addr = RTC) && bool_decide (MAX_DISTANCE ≤ distance addr)
  then false
  else
    match HashSet_get addr known with
    | None => true
    | Some knownAddress =>
        bool_decide (timestamp knownAddress < now env - NetworkAgent.RELAY_THROTTLE)
    end.

(** [_onGetAddr] *)
Definition onGetAddr (env : Env) (protocolMask serviceMask : N) : M unit :=
  ok ← canAcceptMessage GET_ADDR;
  if negb ok then mret tt
  else
    a ← get;
    let addresses := book_query env protocolMask serviceMask NetworkAgent.MAX_ADDR_PER_MESSAGE in
    let filteredAddresses := List.filter (getAddr_filter env (knownAddresses a)) addresses in
    if bool_decide (length filteredAddresses ≠ 0%nat) then
      channel_send env (FAddr filteredAddresses);; mret tt
    else mret tt.

(** [_checkConnectivity] *)
Definition checkConnectivity (env : Env) : M unit :=
  let nonce := randomUint32 env in
  ok ← channel_send env (FPing nonce);
  if negb ok then channel_close CloseType.SENDING_PING_MESSAGE_FAILED
  else
    let startTime := now env in
    modify (λ a, set_pingTimes (<[nonce := startTime]> (pingTimes a)) a);;
    if bool_decide (lastMessageReceivedAt env < startTime - NetworkAgent.CONNECTIVITY_CHECK_INTERVAL)
    then timers_setTimeout (ping_name nonce) NetworkAgent.PING_TIMEOUT
    else mret tt.

(** [_onPing] *)
Definition onPing (env : Env) (nonce : N) : M unit :=
  ok ← canAcceptMessage PING;
  if negb ok then mret tt
  else channel_send env (FPong nonce);; mret tt.

(** [_onPong]; [if (startTime)] is false for an absent entry and for 0. *)
Definition onPong (env : Env) (nonce : N) : M unit :=
  timers_clearTimeout (ping_name nonce);;
  a ← get;
  match pingTimes a !! nonce with
  | Some startTime =>
      if bool_decide (startTime ≠ 0) then
        let delta := now env - startTime in
        (if bool_decide (0 < delta) then fire env (EvPingPong delta) else mret tt);;
        modify (λ a, set_pingTimes (delete nonce (pingTimes a)) a)
      else mret tt
  | None => mret tt
  end.

(** The callbacks the agent registers with its timers. *)
Definition versionTimeout : M unit :=
  timers_clearTimeout "version";; channel_close CloseType.VERSION_TIMEOUT.
Definition verackTimeout : M unit :=
  timers_clearTimeout "verack";; channel_close CloseType.VERACK_TIMEOUT.
Definition pingTimeout (nonce : N) : M unit :=
  timers_clearTimeout (ping_name nonce);;
  modify (λ a, set_pingTimes (delete nonce (pingTimes a)) a);;
  channel_close CloseType.PING_TIMEOUT.
Definition announceAddr (env : Env) : M unit :=
  a ← get;
  channel_send env (FAddr [cfg_peerAddress (networkConfig a)]);; mret tt.

(** The channel's dispatch of an inbound frame to its listener. *)
Definition onMessage (env : Env) (msg : Message) : M unit :=
  match msg with
  | MsgVersion m => onVersion env m
  | MsgVerAck m => onVerAck env m
  | MsgAddr addresses => onAddr env addresses
  | MsgGetAddr pm sm => onGetAddr env pm sm
  | MsgPing nonce => onPing env nonce
  | MsgPong nonce => onPong env nonce
  end.

End Handlers.

(** ** The agent as a state machine *)

(** [new NetworkAgent(...)] on a freshly opened channel: [remote] is the
    address the channel already expects (outbound connection) or null
    (inbound); [nonce] is the random challenge drawn by the constructor;
    [window] is the rate limiter's window. *)
Definition new_NetworkAgent (cfg : NetworkConfig) (remote : option PeerAddress)
    (nonce : list byte) (window : Z) : Agent :=
  {| networkConfig := cfg;
     challengeNonce := nonce;
     channel := mkChannel remote false;
     peer := None;
     knownAddresses := ∅;
     timers := Timers_new;
     versionReceived := false;
     verackReceived := false;
     versionSent := false;
     verackSent := false;
     versionAttempts := 0;
     peerAddressVerified := false;
     peerChallengeNonce := None;
     pingTimes := ∅;
     addrQueue := ThrottledQueue_new NetworkAgent.MAX_ADDR_RELAY_PER_MESSAGE
                    NetworkAgent.MAX_ADDR_RELAY_PER_MESSAGE
                    NetworkAgent.ADDR_QUEUE_INTERVAL NetworkAgent.ADDR_RATE_LIMIT;
     addrLimit := RateLimit_new NetworkAgent.ADDR_RATE_LIMIT window |}.

(** What can happen to an agent: a call from outside, an inbound frame, a
    timer or the relay queue firing, the channel going down. *)
Inductive Event :=
| Call_handshake      (* handshake(), by the owner or by the retry timeout *)
| Call_relayAddresses (addresses : list PeerAddress)
| Queue_fires         (* the relay queue calls back: _relayNow *)
| Recv (msg : Message)
| Timeout_version
| Timeout_verack
| Timeout_ping (nonce : N)
| Interval_connectivity
| Interval_announce_addr
| Channel_closes.

(** A timer fires only while it is registered, the queue only until it is
    stopped. *)
Definition enabled (a : Agent) (ev : Event) : bool :=
  match ev with
  | Queue_fires => negb (stopped (addrQueue a))
  | Timeout_version => bool_decide (is_Some (timeouts (timers a) !! "version"))
  | Timeout_verack => bool_decide (is_Some (timeouts (timers a) !! "verack"))
  | Timeout_ping nonce => bool_decide (is_Some (timeouts (timers a) !! ping_name nonce))
  | Interval_connectivity => bool_decide (is_Some (intervals (timers a) !! "connectivity"))
  | Interval_announce_addr => bool_decide (is_Some (intervals (timers a) !! "announce-addr"))
  | _ => true
  end.

Definition step `{Externals} (env : Env) (ev : Event) : M unit :=
  match ev with
  | Call_handshake => handshake env
  | Call_relayAddresses addresses => relayAddresses addresses
  | Queue_fires => relayNow env
  | Recv msg => onMessage env msg
  | Timeout_version => versionTimeout
  | Timeout_verack => verackTimeout
  | Timeout_ping nonce => pingTimeout nonce
  | Interval_connectivity => checkConnectivity env
  | Interval_announce_addr => announceAddr env
  | Channel_closes => channel_closes
  end.

(** [Reachable a tr]: some agent, started fresh, has come to state [a]
    and has done [tr] to the outside so far. *)
Inductive Reachable `{Externals} : Agent → list Action → Prop :=
| Reachable_new cfg remote nonce window :
    Reachable (new_NetworkAgent cfg remote nonce window) []
| Reachable_step a tr env ev a' out :
    Reachable a tr →
    enabled a ev = true →
    step env ev a = Ok (tt, a', out) →
    Reachable a' (tr ++ out).

(** Running a list of events; [None] when an event is not enabled or a
    handler throws. *)
Fixpoint run `{Externals} (evs : list (Env * Event)) (a : Agent) (tr : list Action)
  : option (Agent * list Action) :=
  match evs with
  | [] => Some (a, tr)
  | (env, ev) :: rest =>
      if enabled a ev then
        match step env ev a with
        | Ok (_, a', out) => run rest a' (tr ++ out)
        | Throw _ => None
        end
      else None
  end.

(** How often the 'handshake' event was fired in a trace. *)
Definition is_handshake_fire (x : Action) : bool :=
  match x with AFire (EvHandshake _ _) => true | _ => false end.
Definition handshake_fires (tr : list Action) : nat :=
  length (List.filter is_handshake_fire tr).

Definition is_log (x : Action) : bool :=
  match x with ALog _ => true | _ => false end.
Definition is_close (x : Action) : bool :=
  match x with AClose _ => true | _ => false end.

(** ** A small instance of the collaborators, for concrete runs *)

Module Sample.

Definition sample_hashCode (p : PeerAddress) : string :=
  match protocol p with
  | DUMB => "dumb:///"
  | WS => "wss:///"
  | RTC => "rtc:///"
  end +:+ pretty (peerId p).

(** Keys are public: the peer id is the key itself, a signature is the
    checksum of the data plus the key. *)
Definition checksum (data : list byte) : N :=
  foldr (λ b acc, (Byte.to_N b + acc)%N) 0%N data.

Definition genesis : Hash := mkHash (replicate 32 Byte.x2a).

Local Instance sample_externals : Externals := {|
  hashCode := sample_hashCode;
  PeerAddress_equals := λ a b, bool_decide (sample_hashCode a = sample_hashCode b);
  verifySignature := λ p, bool_decide (signature p = publicKey p);
  isSeed := λ p, bool_decide (timestamp p = 0);
  globallyReachable := λ p, bool_decide (netAddress p ≠ Some 127%N);
  Version_isCompatible := λ v, bool_decide (2 ≤ v)%N;
  GENESIS_HASH := genesis;
  Hash_equals := λ h o, bool_decide (h = o);
  toPeerId := λ k, k;
  PeerId_serialize := λ i, option_list (Byte.of_N (i mod 256)%N);
  Signature_create := λ _ pub data, (checksum data + pub)%N;
  Signature_verify := λ sig pub data, bool_decide (sig = (checksum data + pub)%N);
  MAX_DISTANCE := 4;
  ThrottledQueue_maxSize := λ args, Z.to_nat args.2;
  ThrottledQueue_overflow := λ queued _, queued
|}.

(** A byte array with a read cursor and a write cursor. [write] is
    [this.set(array, writePos)], which throws when the array does not fit;
    [read] is [this.subarray(readPos, readPos + length)]. *)
Record CursorBuffer := mkCursorBuffer {
  buf_bytes : list byte;
  readPos : nat;
  writePos : nat
}.

Definition CursorBuffer_write (buf : CursorBuffer) (array : list byte)
  : Res CursorBuffer :=
  if decide (writePos buf + length array ≤ length (buf_bytes buf))%nat then
    Ok (mkCursorBuffer
          (take (writePos buf) (buf_bytes buf) ++ array
             ++ drop (writePos buf + length array) (buf_bytes buf))
          (readPos buf)
          (writePos buf + length array))
  else Throw RangeError.

Definition CursorBuffer_read (buf : CursorBuffer) (len : nat)
  : Res (list byte * CursorBuffer) :=
  Ok (take len (drop (readPos buf) (buf_bytes buf)),
      mkCursorBuffer (buf_bytes buf) (readPos buf + len) (writePos buf)).

Local Instance cursor_serialization : Serialization := {|
  Buffer := CursorBuffer;
  Buffer_new := λ n, mkCursorBuffer (replicate n Byte.x00) 0 0;
  byteLength := λ buf, length (buf_bytes buf);
  Buffer_write := CursorBuffer_write;
  Buffer_read := CursorBuffer_read;
  Primitive_new := λ arg len,
    match arg with
    | None => Ok (replicate len Byte.x00)
    | Some a => if decide (length a = len) then Ok a else Throw InvalidLength
    end
|}.

(** Our node, and a remote WebSocket node with peer id 7. *)
Definition me : PeerAddress :=
  mkPeerAddress WS 1%N 1000 (Some 1%N) 5%N 5%N 0 5%N.
Definition cfg : NetworkConfig := mkNetworkConfig me 5%N 5%N 3%N 1%N.
Definition remote : PeerAddress :=
  mkPeerAddress WS 1%N 2000 (Some 2%N) 7%N 7%N 0 7%N.
Definition our_nonce : list byte := [Byte.x01; Byte.x02].
Definition their_nonce : list byte := [Byte.x03].

Definition env0 : Env :=
  {| now := 100000;
     sendOk := λ _, true;
     listenerCloses := λ _, false;
     randomUint32 := 9%N;
     lastMessageReceivedAt := 99000;
     headHash := genesis;
     book_get := λ _, None;
     book_query := λ _ _ _, [];
     availableNow := 10 |}.

(** The same, with every send failing. *)
Definition env_fail : Env :=
  mkEnv (now env0) (λ _, false) (listenerCloses env0) (randomUint32 env0)
    (lastMessageReceivedAt env0) (headHash env0) (book_get env0)
    (book_query env0) (availableNow env0).

Definition fresh : Agent := new_NetworkAgent cfg (Some remote) our_nonce 60000.

Definition their_version : Message :=
  MsgVersion (mkVersionMessage 2%N remote genesis genesis their_nonce).
(** The remote signs (our peer id, our nonce): bytes 5, 1, 2. *)
Definition their_verack : Message := MsgVerAck (mkVerAckMessage 7%N 15%N).

(** A clean outbound handshake. *)
Definition handshake_run : list (Env * Event) :=
  [(env0, Call_handshake); (env0, Recv their_version); (env0, Recv their_verack)].

(** The agent after our version went out and theirs came in. *)
Definition awaiting_verack : Agent :=
  (default (fresh, [])
     (run [(env0, Call_handshake); (env0, Recv their_version)] fresh [])).1.

(** The agent and its trace after that handshake. *)
Definition after_handshake : Agent * list Action :=
  default (fresh, []) (run handshake_run fresh []).
Definition established : Agent := after_handshake.1.

(** More addresses: one with a wrong signature, a valid newcomer, and a
    WebRTC address at the maximal distance. *)
Definition forged : PeerAddress :=
  mkPeerAddress WS 1%N 3000 (Some 3%N) 8%N 8%N 0 99%N.
Definition newcomer : PeerAddress :=
  mkPeerAddress WS 1%N 5000 (Some 4%N) 11%N 11%N 0 11%N.
Definition far_rtc : PeerAddress :=
  mkPeerAddress RTC 1%N 5000 None 12%N 12%N 4 12%N.

(** After the handshake, three addresses are handed over for relay, and
    the queue fires. *)
Definition queued : Agent * list Action :=
  default (fresh, [])
    (run (handshake_run ++ [(env0, Call_relayAddresses [far_rtc; remote; newcomer])])
       fresh []).
Definition relayed : Agent * list Action :=
  match step env0 Queue_fires queued.1 with
  | Ok (_, a, out) => (a, out)
  | Throw _ => (fresh, [])
  end.

(** Then one connectivity check while the remote has been talking. *)
Definition after_check : Agent * list Action :=
  default (fresh, [])
    (run (handshake_run ++ [(env0, Interval_connectivity)]) fresh []).

(** An address book that answers every query with three addresses: one
    too far, the remote's own, and a new one. *)
Definition env_book : Env :=
  mkEnv (now env0) (sendOk env0) (listenerCloses env0) (randomUint32 env0)
    (lastMessageReceivedAt env0) genesis (book_get env0)
    (λ _ _ _, [far_rtc; remote; newcomer]) (availableNow env0).

(** The same check after the remote has been silent for longer than
    the check interval: the ping timer is armed. *)
Definition env_silent : Env :=
  mkEnv 200000 (sendOk env0) (listenerCloses env0) 9%N 100000 genesis
    (book_get env0) (book_query env0) 10%nat.
Definition after_silent_check : Agent * list Action :=
  default (fresh, [])
    (run (handshake_run ++ [(env_silent, Interval_connectivity)]) fresh []).

End Sample.

(** ** Reasoning about handlers *)

(** The state after the channel went down: closed, and, unless it was
    closed before, all timers cleared and the relay queue stopped. *)
Definition closed_state (a : Agent) : Agent :=
  set_addrQueue (if closed (channel a) then addrQueue a
                 else ThrottledQueue_stop (addrQueue a))
    (set_timers (if closed (channel a) then timers a
                 else Timers_clearAll (timers a))
       (set_channel (mkChannel (chan_peerAddress (channel a)) true) a)).

(** [wp m a Q]: run from [a], the routine [m] does not throw, and its
    result, final state and output satisfy [Q]. *)
Definition wp {A} (m : M A) (a : Agent) (Q : A → Agent → list Action → Prop) : Prop :=
  match m a with
  | Ok (x, a', out) => Q x a' out
  | Throw _ => False
  end.

(** The invariant of the handshake flags. *)
Definition flags_ok (a : Agent) : Prop :=
  (verackReceived a = true → versionReceived a = true)
  ∧ (verackSent a = true → peerAddressVerified a = true)
  ∧ (versionReceived a = true →
       is_Some (chan_peerAddress (channel a)) ∧ is_Some (peerChallengeNonce a)).

(** No connectivity check runs before the remote's verack. *)
Definition pings_ok (a : Agent) : Prop :=
  (verackReceived a = false →
     pingTimes a = ∅ ∧ intervals (timers a) !! "connectivity" = None)
  ∧ (∀ nonce, is_Some (timeouts (timers a) !! ping_name nonce) →
              is_Some (pingTimes a !! nonce)).

(** Every known address is stored under its own hash code. *)
Definition well_keyed `{Externals} (s : gmap string PeerAddress) : Prop :=
  ∀ k p, s !! k = Some p → hashCode p = k.
Definition known_ok `{Externals} (a : Agent) : Prop :=
  well_keyed (knownAddresses a).

Definition Inv `{Externals} (a : Agent) : Prop :=
  flags_ok a ∧ pings_ok a ∧ known_ok a.

(** What one handler run may do about the 'handshake' event: nothing once
    the remote's verack has been received before; at most one firing; and a
    firing leaves both verack flags set. *)
Definition fires_ok (a a' : Agent) (out : list Action) : Prop :=
  (verackReceived a = true → verackReceived a' = true ∧ handshake_fires out = 0%nat)
  ∧ (handshake_fires out ≤ 1)%nat
  ∧ (handshake_fires out ≠ 0%nat →
       verackReceived a' = true ∧ verackSent a' = true).

(** What the observers of 'handshake' find in the agent they are handed. *)
Definition snapshot_post : unit → Agent → list Action → Prop :=
  λ _ _ out,
    ∀ p agent, In (AFire (EvHandshake p agent)) out →
               verackSent agent = true ∧ verackReceived agent = true
               ∧ peer agent = p.

(** What the run of the handler of [ev] keeps of the outstanding pings:
    unless [ev] is the pong for a nonce or the expiry of its timer, the
    nonce stays in pingTimes, and its timer, when pending, stays pending
    or else the channel went down in this run. *)
Definition pings_kept (ev : Event) (a : Agent) : unit → Agent → list Action → Prop :=
  λ _ a' _,
    ∀ nonce,
      ev ≠ Recv (MsgPong nonce) → ev ≠ Timeout_ping nonce →
      (is_Some (pingTimes a !! nonce) → is_Some (pingTimes a' !! nonce))
      ∧ (is_Some (timeouts (timers a) !! ping_name nonce) →
         is_Some (timeouts (timers a') !! ping_name nonce)
         ∨ (closed (channel a) = false ∧ closed (channel a') = true)).

(** What is shown of every handler run. *)
Definition step_post `{Externals} (a : Agent) : unit → Agent → list Action → Prop :=
  λ _ a' out, Inv a' ∧ fires_ok a a' out.

(** The loop of [_onAddr] as a function of the batch: the addresses it
    inserts into the known addresses before it stops, and the close reason
    when it stops early. *)
Fixpoint checked_prefix `{Externals} (addresses : list PeerAddress)
  : list PeerAddress * option CloseType.t :=
  match addresses with
  | [] => ([], None)
  | addr :: rest =>
      if negb (verifySignature addr) then ([], Some CloseType.INVALID_ADDR)
      else if bool_decide (protocol addr = WS) && negb (globallyReachable addr)
      then ([], Some CloseType.ADDR_NOT_GLOBALLY_REACHABLE)
      else let '(added, failure) := checked_prefix rest in (addr :: added, failure)
  end.

Definition add_all `{Externals} (addresses : list PeerAddress)
    (s : gmap string PeerAddress) : gmap string PeerAddress :=
  foldl (λ s x, HashSet_add x s) s addresses.

(** An address is transmitted when some addr frame handed to the channel
    contains it. *)
Definition transmitted (out : list Action) (addr : PeerAddress) : Prop :=
  ∃ l ok, In (ASend (FAddr l) ok) out ∧ addr ∈ l.

(** The relay condition of the specification, on a dequeued address. *)
Definition relay_condition `{Externals} (env : Env) (known : gmap string PeerAddress)
    (addr : PeerAddress) : Prop :=
  ¬ (protocol addr = RTC ∧ MAX_DISTANCE ≤ distance addr)
  ∧ protocol addr ≠ DUMB
  ∧ isSeed addr = false
  ∧ (HashSet_get addr known = None
     ∨ (∃ knownAddress, HashSet_get addr known = Some knownAddress
          ∧ protocol knownAddress = RTC
          ∧ distance addr < distance knownAddress)
     ∨ (∃ knownAddress, HashSet_get addr known = Some knownAddress
          ∧ timestamp knownAddress < now env - NetworkAgent.RELAY_THROTTLE)).

(** An address passes the per-address checks of [_onAddr]. *)
Definition addr_passes `{Externals} (addr : PeerAddress) : bool :=
  verifySignature addr
  && negb (bool_decide (protocol addr = WS) && negb (globallyReachable addr)).

(** A state in which the admitter lets every frame through. *)
Definition handshaken (a : Agent) : Prop :=
  versionReceived a = true ∧ verackReceived a = true.

(** The frames whose send result the agent inspects. *)
Definition checked_frame (f : Frame) : bool :=
  match f with
  | FVersion _ _ _ | FPing _ => true
  | _ => false
  end.

(** The same environment, except that every send the agent does not
    inspect succeeds. *)
Definition unchecked_sends_succeed (env : Env) : Env :=
  mkEnv (now env) (λ f, if checked_frame f then sendOk env f else true)
    (listenerCloses env) (randomUint32 env) (lastMessageReceivedAt env)
    (headHash env) (book_get env) (book_query env) (availableNow env).

(** An action with the result of an uninspected send blotted out. *)
Definition forget_unchecked (x : Action) : Action :=
  match x with
  | ASend f ok => if checked_frame f then x else ASend f true
  | _ => x
  end.

(** Two runs that end in the same way: same result and state, same output
    up to the results of uninspected sends, or the same exception. *)
Definition same_run {A} (r1 r2 : Res (A * Agent * list Action)) : Prop :=
  match r1, r2 with
  | Ok (x1, a1, o1), Ok (x2, a2, o2) =>
      x1 = x2 ∧ a1 = a2 ∧ forget_unchecked <$> o1 = forget_unchecked <$> o2
  | Throw e1, Throw e2 => e1 = e2
  | _, _ => False
  end.

Definition sim {A} (m1 m2 : M A) : Prop := ∀ a, same_run (m1 a) (m2 a).

(** ** Further notions used in the statements *)

(** The checks [_onVersion] makes on a first version message, in the order
    it makes them. *)
Definition version_acceptable `{Externals} (a : Agent) (msg : VersionMessage) : bool :=
  Version_isCompatible (msg_version msg)
  && Hash_equals GENESIS_HASH (msg_genesisHash msg)
  && verifySignature (msg_peerAddress msg)
  && match chan_peerAddress (channel a) with
     | Some expected => PeerAddress_equals expected (msg_peerAddress msg)
     | None => true
     end.

(** The checks [_onVerAck] makes on a first verack message. *)
Definition verack_acceptable `{Externals} (a : Agent) (remote : PeerAddress)
    (msg : VerAckMessage) : bool :=
  bool_decide (toPeerId (msg_publicKey msg) = peerId remote)
  && Signature_verify (msg_signature msg) (msg_publicKey msg)
       (PeerId_serialize (peerId (cfg_peerAddress (networkConfig a)))
          ++ challengeNonce a).

(** An environment in which every send succeeds and no observer closes the
    channel. *)
Definition cooperative (env : Env) : Prop :=
  (∀ f, sendOk env f = true) ∧ (∀ ev, listenerCloses env ev = false).

(** While the channel is open and our version is out, the handshake is
    watched: the verack timer is pending until the remote's verack has been
    received, the version timer until its version has been received. *)
Definition watchdogs_ok (a : Agent) : Prop :=
  closed (channel a) = false → versionSent a = true →
  (verackReceived a = false →
     timeouts (timers a) !! "verack" = Some (NetworkAgent.HANDSHAKE_TIMEOUT * 2))
  ∧ (versionReceived a = false →
       timeouts (timers a) !! "version" = Some NetworkAgent.HANDSHAKE_TIMEOUT).

(** Before the remote's verack nothing is queued for relay and the announce
    interval does not run; a closed channel has a stopped relay queue. *)
Definition quiet_ok (a : Agent) : Prop :=
  (verackReceived a = false →
     queue (addrQueue a) = [] ∧ intervals (timers a) !! "announce-addr" = None)
  ∧ (closed (channel a) = true → stopped (addrQueue a) = true).

(** The frames of the handshake itself. *)
Definition handshake_send (x : Action) : bool :=
  match x with
  | ASend (FVersion _ _ _) _ | ASend (FVerAck _ _) _ => true
  | ASend _ _ => false
  | _ => true
  end.

(** What no handler run undoes: the handshake flags and a close stay, the
    send attempts do not decrease, a known address stays known, and once
    the remote's version has been received the remote's address, its
    challenge nonce and the peer handle are fixed. *)
Definition never_undone `{Externals} (a a' : Agent) : Prop :=
  (versionReceived a = true → versionReceived a' = true)
  ∧ (verackReceived a = true → verackReceived a' = true)
  ∧ (versionSent a = true → versionSent a' = true)
  ∧ (verackSent a = true → verackSent a' = true)
  ∧ (peerAddressVerified a = true → peerAddressVerified a' = true)
  ∧ (closed (channel a) = true → closed (channel a') = true)
  ∧ versionAttempts a ≤ versionAttempts a'
  ∧ (∀ addr, is_Some (HashSet_get addr (knownAddresses a)) →
             is_Some (HashSet_get addr (knownAddresses a')))
  ∧ (versionReceived a = true →
       chan_peerAddress (channel a') = chan_peerAddress (channel a)
       ∧ peerChallengeNonce a' = peerChallengeNonce a
       ∧ peer a' = peer a).

(** The verack frames among [out] carry our public key and our signature
    over the remote's peer id followed by the remote's challenge nonce, as
    the agent [a'] holds them. *)
Definition veracks_signed `{Externals} (a' : Agent) (out : list Action) : Prop :=
  ∀ pk sig ok,
    In (ASend (FVerAck pk sig) ok) out →
    ∃ remote nonce,
      chan_peerAddress (channel a') = Some remote
      ∧ peerChallengeNonce a' = Some nonce
      ∧ pk = keyPair_publicKey (networkConfig a')
      ∧ sig = Signature_create (keyPair_privateKey (networkConfig a'))
                (keyPair_publicKey (networkConfig a'))
                (PeerId_serialize (peerId remote) ++ nonce).

Definition is_version_fire (x : Action) : bool :=
  match x with AFire (EvVersion _ _) => true | _ => false end.

(** On a connection that came in (the channel expected no address): the
    channel has no remote address before the version message, and the
    address is verified only by a verack. *)
Definition inbound_ok (a : Agent) : Prop :=
  (versionReceived a = false → chan_peerAddress (channel a) = None)
  ∧ (peerAddressVerified a = true → verackReceived a = true).

(** What one handler run re-establishes of the two notions above, with
    the frames it may send before the remote's verack. *)
Definition watch_post `{Externals} (a : Agent) : unit → Agent → list Action → Prop :=
  λ _ a' out,
    watchdogs_ok a' ∧ quiet_ok a'
    ∧ (verackReceived a' = false → Forall (λ x, handshake_send x = true) out).

(** How the state after one handler run relates to the state before it. *)
Definition relate_post `{Externals} (a : Agent) : unit → Agent → list Action → Prop :=
  λ _ a' out,
    never_undone a a' ∧ veracks_signed a' out
    ∧ (versionReceived a' = true →
         versionReceived a = true ∨ Exists (λ x, is_version_fire x = true) out)
    ∧ (handshake_fires out ≠ 0%nat → versionReceived a = true)
    ∧ networkConfig a' = networkConfig a
    ∧ (∀ pk sig ok, In (ASend (FVerAck pk sig) ok) out → versionReceived a' = true).

(** * Properties *)

Set Warnings "-clear-no-such-hyp".

(** ** Rules for running handlers *)

Section WpRules.
Context {A B : Type}.

Lemma wp_ret (x : A) a Q : Q x a [] → wp (mret x) a Q.
Proof. done. Qed.

Lemma wp_bind (m : M A) (f : A → M B) a Q :
  wp m a (λ x a1 o1, wp (f x) a1 (λ y a2 o2, Q y a2 (o1 ++ o2))) →
  wp (m ≫= f) a Q.
Proof.
  unfold wp, mbind, M_bind. destruct (m a) as [[[x a1] o1]|e]; [|done].
  destruct (f x a1) as [[[y a2] o2]|e]; done.
Qed.

Lemma wp_mono (m : M A) a (Q Q' : A → Agent → list Action → Prop) :
  wp m a Q → (∀ x a' out, Q x a' out → Q' x a' out) → wp m a Q'.
Proof. unfold wp. destruct (m a) as [[[x a1] o1]|e]; auto. Qed.

Lemma wp_eq (m : M A) a x a' out Q :
  m a = Ok (x, a', out) → Q x a' out → wp m a Q.
Proof. unfold wp. by intros ->. Qed.

Lemma wp_inv (m : M A) a Q :
  wp m a Q → ∃ x a' out, m a = Ok (x, a', out) ∧ Q x a' out.
Proof. unfold wp. destruct (m a) as [[[x a1] o1]|e]; naive_solver. Qed.
End WpRules.

Lemma wp_get a Q : Q a a [] → wp get a Q.
Proof. done. Qed.
Lemma wp_modify f a Q : Q tt (f a) [] → wp (modify f) a Q.
Proof. done. Qed.
Lemma wp_emit x a Q : Q tt a [x] → wp (emit x) a Q.
Proof. done. Qed.

Section LeafRoutines.
Context `{Externals}.

Lemma channel_closes_eq a : channel_closes a = Ok (tt, closed_state a, []).
Proof.
  destruct a as [? ? [cpa cl] ? ? ? ? ? ? ? ? ? ? ? ? ?].
  unfold channel_closes, closed_state. by destruct cl.
Qed.

Lemma channel_close_eq ty a :
  channel_close ty a = Ok (tt, closed_state a, [AClose ty]).
Proof.
  unfold channel_close, mbind, M_bind, emit. by rewrite channel_closes_eq.
Qed.

Lemma wp_channel_close ty a Q :
  Q tt (closed_state a) [AClose ty] → wp (channel_close ty) a Q.
Proof. apply wp_eq, channel_close_eq. Qed.

Lemma wp_channel_closes a Q : Q tt (closed_state a) [] → wp channel_closes a Q.
Proof. apply wp_eq, channel_closes_eq. Qed.

Lemma wp_channel_send env f a Q :
  Q (sendOk env f) a [ASend f (sendOk env f)] → wp (channel_send env f) a Q.
Proof. done. Qed.

Lemma wp_fire env ev a Q :
  (listenerCloses env ev = true → Q tt (closed_state a) [AFire ev]) →
  (listenerCloses env ev = false → Q tt a [AFire ev]) →
  wp (fire env ev) a Q.
Proof.
  intros Hc Hn. unfold wp, fire, mbind, M_bind, emit.
  destruct (listenerCloses env ev); [rewrite channel_closes_eq|]; cbn; auto.
Qed.
End LeafRoutines.

(** ** Timer names *)

Lemma ping_name_inj n m : ping_name n = ping_name m → n = m.
Proof. unfold ping_name. intros Heq. by simplify_eq/=. Qed.

Lemma ping_name_version n : ping_name n ≠ "version".
Proof. done. Qed.
Lemma ping_name_verack n : ping_name n ≠ "verack".
Proof. done. Qed.

(** ** The known-address set *)

Section Known.
Context `{Externals}.

Lemma well_keyed_empty : well_keyed ∅.
Proof. intros k p. by rewrite lookup_empty. Qed.

Lemma well_keyed_add addr s : well_keyed s → well_keyed (HashSet_add addr s).
Proof.
  intros Hs k p. unfold HashSet_add. rewrite lookup_insert_Some.
  intros [[<- <-]|[_ Hk]]; [done|by apply Hs].
Qed.

Lemma well_keyed_add_all l s : well_keyed s → well_keyed (add_all l s).
Proof.
  revert s. induction l as [|x l IH]; intros s Hs; [done|].
  apply IH, well_keyed_add, Hs.
Qed.

Lemma add_all_app l1 l2 s : add_all (l1 ++ l2) s = add_all l2 (add_all l1 s).
Proof. apply foldl_app. Qed.

(** An address that was added stays a member, whatever is added after. *)
Lemma add_all_member l s addr :
  is_Some (HashSet_get addr s) ∨ addr ∈ l → is_Some (HashSet_get addr (add_all l s)).
Proof.
  revert s. induction l as [|x l IH]; intros s [Hs|Hin]; simpl.
  - done.
  - by apply elem_of_nil in Hin.
  - apply IH. left. unfold HashSet_get, HashSet_add.
    rewrite lookup_insert_is_Some. destruct (decide (hashCode x = hashCode addr)); auto.
  - apply elem_of_cons in Hin as [->|Hin]; apply IH; [left|by right].
    unfold HashSet_get, HashSet_add. rewrite lookup_insert_eq. eauto.
Qed.

(** The loop of [_onAddr], in closed form. *)
Lemma checkAddresses_eq l a :
  checkAddresses l a =
  Ok (match checked_prefix l with
      | (added, None) =>
          (true, set_knownAddresses (add_all added (knownAddresses a)) a, [])
      | (added, Some ty) =>
          (false,
           closed_state (set_knownAddresses (add_all added (knownAddresses a)) a),
           [AClose ty])
      end).
Proof.
  revert a. induction l as [|addr rest IH]; intros a.
  - by destruct a.
  - cbn [checkAddresses checked_prefix].
    destruct (negb (verifySignature addr)).
    { unfold mbind, M_bind. rewrite channel_close_eq. by destruct a. }
    destruct (bool_decide (protocol addr = WS) && negb (globallyReachable addr)).
    { unfold mbind, M_bind. rewrite channel_close_eq. by destruct a. }
    unfold mbind, M_bind, modify. rewrite IH.
    destruct (checked_prefix rest) as [added [ty|]]; by destruct a.
Qed.

Lemma wp_checkAddresses l a Q :
  (∀ added,
     Q true (set_knownAddresses (add_all added (knownAddresses a)) a) []) →
  (∀ added ty,
     Q false
       (closed_state (set_knownAddresses (add_all added (knownAddresses a)) a))
       [AClose ty]) →
  wp (checkAddresses l) a Q.
Proof.
  intros Hok Hfail. unfold wp. rewrite checkAddresses_eq.
  destruct (checked_prefix l) as [added [ty|]]; auto.
Qed.
End Known.

(** ** Symbolic execution of handlers *)

Ltac agent_simpl :=
  cbn [networkConfig challengeNonce channel peer knownAddresses timers
       versionReceived verackReceived versionSent verackSent versionAttempts
       peerAddressVerified peerChallengeNonce pingTimes addrQueue addrLimit
       set_channel set_peer set_knownAddresses set_timers set_versionReceived
       set_verackReceived set_versionSent set_verackSent set_versionAttempts
       set_peerAddressVerified set_peerChallengeNonce set_pingTimes
       set_addrQueue set_addrLimit
       chan_peerAddress closed timeouts intervals
       Timers_setTimeout Timers_clearTimeout Timers_setInterval Timers_clearAll
       Timers_new closed_state queue stopped ThrottledQueue_stop
       negb andb orb fst snd] in *.

Ltac bool_decide_closed :=
  repeat match goal with
  | |- context [bool_decide (?x = ?x)] =>
      rewrite (bool_decide_eq_true_2 (x = x)) by reflexivity
  | |- context [bool_decide (VERSION = VERACK)] =>
      rewrite (bool_decide_eq_false_2 (VERSION = VERACK)) by discriminate
  | |- context [bool_decide (?x = VERSION)] =>
      rewrite (bool_decide_eq_false_2 (x = VERSION)) by discriminate
  | |- context [bool_decide (?x = VERACK)] =>
      rewrite (bool_decide_eq_false_2 (x = VERACK)) by discriminate
  end.

(** Split on a boolean variable inside a condition, else on the condition. *)
Ltac split_cond b :=
  first
    [ match b with
      | context [?v] =>
          is_var v;
          lazymatch type of v with bool => destruct v eqn:? end
      end
    | destruct b eqn:? ].

Ltac wp_step :=
  lazymatch goal with
  | |- wp (mret _) _ _ => apply wp_ret
  | |- wp (mbind _ _) _ _ => apply wp_bind
  | |- wp get _ _ => apply wp_get
  | |- wp (modify _) _ _ => apply wp_modify
  | |- wp (emit _) _ _ => apply wp_emit
  | |- wp (throw _) _ _ => exfalso
  | |- wp (channel_close _) _ _ => apply wp_channel_close
  | |- wp channel_closes _ _ => apply wp_channel_closes
  | |- wp (channel_send _ _) _ _ => apply wp_channel_send
  | |- wp (fire _ _) _ _ => apply wp_fire; intros ?
  | |- wp (checkAddresses _) _ _ => apply wp_checkAddresses; intros
  | |- wp (timers_setTimeout _ _) _ _ => unfold timers_setTimeout
  | |- wp (timers_clearTimeout _) _ _ => unfold timers_clearTimeout
  | |- wp (timers_setInterval _ _) _ _ => unfold timers_setInterval
  | |- wp (canAcceptMessage _) _ _ => unfold canAcceptMessage
  | |- wp (handshake _) _ _ => unfold handshake
  | |- wp (sendVerAck _) _ _ => unfold sendVerAck
  | |- wp (finishHandshake _) _ _ => unfold finishHandshake
  | |- wp (requestAddresses _) _ _ => unfold requestAddresses
  | |- wp (onVersion_accept _ _) _ _ => unfold onVersion_accept
  | |- wp (if ?b then _ else _) _ _ => split_cond b
  | |- wp (match ?x with _ => _ end) _ _ => destruct x eqn:?
  end.

Ltac wp_run := repeat (agent_simpl; bool_decide_closed; cbv beta; wp_step).

(** Goals about the state a handler ends in. *)
Ltac inv_simpl :=
  agent_simpl;
  repeat match goal with
  | |- context [if ?v then _ else _] => is_var v; destruct v
  | H : context [if ?v then _ else _] |- _ => is_var v; destruct v
  end;
  agent_simpl;
  cbn [handshake_fires List.filter is_handshake_fire app length].

Ltac hyp_simpl :=
  repeat match goal with
  | H : true = true → _ |- _ => specialize (H eq_refl)
  | H : false = false → _ |- _ => specialize (H eq_refl)
  | H : false = true → _ |- _ => clear H
  | H : true = false → _ |- _ => clear H
  | H : _ ∧ _ |- _ => destruct H
  | H : false = true |- _ => discriminate H
  | H : true = false |- _ => discriminate H
  | H : is_Some None |- _ => by apply is_Some_None in H
  | H : ?m !! ?k = None, H' : is_Some (?m !! ?k) |- _ =>
      rewrite H in H'; by apply is_Some_None in H'
  | H : ?v = true → _ |- _ => is_var v; destruct v
  | H : ?v = false → _ |- _ => is_var v; destruct v
  end.

Ltac lookup_simpl :=
  repeat first
    [ rewrite lookup_insert_is_Some' in *
    | rewrite lookup_delete_is_Some in *
    | rewrite lookup_empty in * ].

Ltac inv_leaf :=
  intros; hyp_simpl;
  first
    [ done
    | lia
    | by eauto using well_keyed_add, well_keyed_add_all, well_keyed_empty
    | lookup_simpl;
      naive_solver eauto using ping_name_inj, ping_name_version, ping_name_verack ].

Ltac inv_solve := inv_simpl; hyp_simpl; split_and?; inv_leaf.

Section Invariant.
Context `{Externals}.

Ltac start a :=
  destruct a as [cfg cn [cpa cl] pr known [touts ints] vr var vs vas att pav pcn pt q lim];
  unfold step_post, Inv, flags_ok, pings_ok, known_ok, fires_ok;
  intros [(Hf1 & Hf2 & Hf3) [[Hp1 Hp2] Hk]]; agent_simpl.

Ltac finish := inv_solve.

Lemma handshake_spec env a : Inv a → wp (handshake env) a (step_post a).
Proof. start a. wp_run; finish. Qed.

Lemma onVersion_spec env msg a : Inv a → wp (onVersion env msg) a (step_post a).
Proof. start a. unfold onVersion. wp_run; finish. Qed.

Lemma onVerAck_spec env msg a : Inv a → wp (onVerAck env msg) a (step_post a).
Proof. start a. unfold onVerAck. wp_run; finish. Qed.

Lemma onAddr_spec env l a : Inv a → wp (onAddr env l) a (step_post a).
Proof. start a. unfold onAddr. wp_run; finish. Qed.

Lemma onGetAddr_spec env pm sm a : Inv a → wp (onGetAddr env pm sm) a (step_post a).
Proof. start a. unfold onGetAddr. wp_run; finish. Qed.

Lemma onPing_spec env n a : Inv a → wp (onPing env n) a (step_post a).
Proof. start a. unfold onPing. wp_run; finish. Qed.

Lemma onPong_spec env n a : Inv a → wp (onPong env n) a (step_post a).
Proof. start a. unfold onPong. wp_run; finish. Qed.

Lemma relayAddresses_spec l a : Inv a → wp (relayAddresses l) a (step_post a).
Proof. start a. unfold relayAddresses. wp_run; finish. Qed.

Lemma relayNow_spec env a : Inv a → wp (relayNow env) a (step_post a).
Proof. start a. unfold relayNow. wp_run; finish. Qed.

Lemma checkConnectivity_spec env a :
  Inv a → enabled a Interval_connectivity = true →
  wp (checkConnectivity env) a (step_post a).
Proof.
  start a. intros Hen%bool_decide_eq_true. agent_simpl.
  unfold checkConnectivity. wp_run; finish.
Qed.

Lemma timeouts_spec a :
  Inv a →
  wp versionTimeout a (step_post a) ∧ wp verackTimeout a (step_post a)
  ∧ (∀ n, wp (pingTimeout n) a (step_post a))
  ∧ (∀ env, wp (announceAddr env) a (step_post a))
  ∧ wp channel_closes a (step_post a).
Proof.
  start a. unfold versionTimeout, verackTimeout, pingTimeout, announceAddr.
  split_and?; intros; wp_run; finish.
Qed.

(** Every enabled event runs to completion without throwing, keeps the
    invariant, and fires 'handshake' as [fires_ok] says. *)
Lemma step_spec env ev a :
  Inv a → enabled a ev = true → wp (step env ev) a (step_post a).
Proof.
  intros HI Hen. destruct (timeouts_spec a HI) as (? & ? & ? & ? & ?).
  destruct ev as [| | |[]| | | | | |]; cbn [step onMessage];
    auto using handshake_spec, onVersion_spec, onVerAck_spec, onAddr_spec,
      onGetAddr_spec, onPing_spec, onPong_spec, relayAddresses_spec,
      relayNow_spec, checkConnectivity_spec.
Qed.
End Invariant.

(** ** Sends whose result is not inspected *)

Section Sim.
Context `{Externals}.

Lemma sim_refl {A} (m : M A) : sim m m.
Proof. intros a. unfold same_run. by destruct (m a) as [[[x a1] o1]|e]. Qed.

Lemma sim_bind {A B} (m1 m2 : M A) (f1 f2 : A → M B) :
  sim m1 m2 → (∀ x, sim (f1 x) (f2 x)) → sim (m1 ≫= f1) (m2 ≫= f2).
Proof.
  intros Hm Hf a. specialize (Hm a). unfold same_run, mbind, M_bind in *.
  destruct (m1 a) as [[[x1 a1] o1]|e1], (m2 a) as [[[x2 a2] o2]|e2]; try done.
  destruct Hm as (-> & -> & Ho). specialize (Hf x2 a2). unfold same_run in Hf.
  destruct (f1 x2 a2) as [[[y1 b1] p1]|e1], (f2 x2 a2) as [[[y2 b2] p2]|e2]; try done.
  destruct Hf as (-> & -> & Hp). by rewrite !fmap_app, Ho, Hp.
Qed.

Lemma sim_send_checked env f :
  checked_frame f = true →
  sim (channel_send env f) (channel_send (unchecked_sends_succeed env) f).
Proof. intros Hc a. by destruct f; try discriminate Hc; cbn. Qed.

Lemma channel_send_eq env f a :
  channel_send env f a = Ok (sendOk env f, a, [ASend f (sendOk env f)]).
Proof. reflexivity. Qed.

(** The result of an uninspected send is thrown away by what follows. *)
Lemma sim_send_dropped {A} env f (k1 k2 : M A) :
  checked_frame f = false → sim k1 k2 →
  sim (channel_send env f ≫= λ _, k1)
      (channel_send (unchecked_sends_succeed env) f ≫= λ _, k2).
Proof.
  intros Hc Hk a. specialize (Hk a). unfold same_run, mbind, M_bind in *.
  rewrite !channel_send_eq.
  destruct (k1 a) as [[[y1 b1] p1]|e1], (k2 a) as [[[y2 b2] p2]|e2]; try done.
  destruct Hk as (-> & -> & Hp). split_and?; [done..|].
  rewrite !fmap_app, Hp. f_equal.
  by destruct f; try discriminate Hc.
Qed.
End Sim.

Section SimEnv.
Context `{Externals}.

Lemma fire_unchecked env ev : fire (unchecked_sends_succeed env) ev = fire env ev.
Proof. reflexivity. Qed.
Lemma relay_filter_unchecked env :
  relay_filter (unchecked_sends_succeed env) = relay_filter env.
Proof. reflexivity. Qed.
Lemma getAddr_filter_unchecked env :
  getAddr_filter (unchecked_sends_succeed env) = getAddr_filter env.
Proof. reflexivity. Qed.
Lemma with_stored_netAddress_unchecked env :
  with_stored_netAddress (unchecked_sends_succeed env) = with_stored_netAddress env.
Proof. reflexivity. Qed.
End SimEnv.

Create HintDb sim discriminated.

Ltac sim_step :=
  cbn [now sendOk listenerCloses randomUint32 lastMessageReceivedAt headHash
       book_get book_query availableNow unchecked_sends_succeed];
  rewrite ?fire_unchecked, ?relay_filter_unchecked, ?getAddr_filter_unchecked,
    ?with_stored_netAddress_unchecked;
  cbv zeta;
  lazymatch goal with
  | |- sim ?m ?m => apply sim_refl
  | |- sim (channel_send _ ?f ≫= λ _, _) (channel_send _ ?f ≫= λ _, _) =>
      first
        [ apply sim_send_dropped; [reflexivity|]
        | apply sim_bind; [apply sim_send_checked; reflexivity|intros ?] ]
  | |- sim (channel_send _ _) (channel_send _ _) =>
      apply sim_send_checked; reflexivity
  | |- sim (mbind _ _) (mbind _ _) => apply sim_bind; [|intros ?]
  | |- sim (if ?c then _ else _) (if ?c then _ else _) => destruct c
  | |- sim (match ?x with _ => _ end) (match ?x with _ => _ end) => destruct x
  | |- _ => solve [auto 1 with sim nocore]
  end.
Ltac sim_run := repeat sim_step.

Section SimHandlers.
Context `{Externals}.
Implicit Types env : Env.

Lemma sendVerAck_sim env :
  sim (sendVerAck env) (sendVerAck (unchecked_sends_succeed env)).
Proof. unfold sendVerAck. sim_run. Qed.
Hint Resolve sendVerAck_sim : sim.

Lemma handshake_sim env :
  sim (handshake env) (handshake (unchecked_sends_succeed env)).
Proof. unfold handshake. sim_run. Qed.
Hint Resolve handshake_sim : sim.

Lemma finishHandshake_sim env :
  sim (finishHandshake env) (finishHandshake (unchecked_sends_succeed env)).
Proof. unfold finishHandshake, requestAddresses. sim_run. Qed.
Hint Resolve finishHandshake_sim : sim.

Lemma onVersion_sim env msg :
  sim (onVersion env msg) (onVersion (unchecked_sends_succeed env) msg).
Proof. unfold onVersion, onVersion_accept. sim_run. Qed.

Lemma onVerAck_sim env msg :
  sim (onVerAck env msg) (onVerAck (unchecked_sends_succeed env) msg).
Proof. unfold onVerAck. sim_run. Qed.

Lemma onAddr_sim env l :
  sim (onAddr env l) (onAddr (unchecked_sends_succeed env) l).
Proof. unfold onAddr. sim_run. Qed.

Lemma onGetAddr_sim env pm sm :
  sim (onGetAddr env pm sm) (onGetAddr (unchecked_sends_succeed env) pm sm).
Proof. unfold onGetAddr. sim_run. Qed.

Lemma onPing_sim env n :
  sim (onPing env n) (onPing (unchecked_sends_succeed env) n).
Proof. unfold onPing. sim_run. Qed.

Lemma onPong_sim env n :
  sim (onPong env n) (onPong (unchecked_sends_succeed env) n).
Proof. unfold onPong. sim_run. Qed.

Lemma relayNow_sim env :
  sim (relayNow env) (relayNow (unchecked_sends_succeed env)).
Proof. unfold relayNow. sim_run. Qed.

Lemma checkConnectivity_sim env :
  sim (checkConnectivity env) (checkConnectivity (unchecked_sends_succeed env)).
Proof. unfold checkConnectivity. sim_run. Qed.

Lemma announceAddr_sim env :
  sim (announceAddr env) (announceAddr (unchecked_sends_succeed env)).
Proof. unfold announceAddr. sim_run. Qed.

(** No handler depends on the result of a send it does not inspect. *)
Lemma step_sim env ev :
  sim (step env ev) (step (unchecked_sends_succeed env) ev).
Proof.
  destruct ev as [| | |[]| | | | | |]; cbn [step onMessage];
    auto using sim_refl, handshake_sim, onVersion_sim, onVerAck_sim, onAddr_sim,
      onGetAddr_sim, onPing_sim, onPong_sim, relayNow_sim, checkConnectivity_sim,
      announceAddr_sim.
Qed.
End SimHandlers.

(** ** Reachable states *)

Lemma handshake_fires_app tr out :
  handshake_fires (tr ++ out) = (handshake_fires tr + handshake_fires out)%nat.
Proof. unfold handshake_fires. by rewrite List.filter_app, length_app. Qed.

Lemma handshake_fires_In out p agent :
  In (AFire (EvHandshake p agent)) out → handshake_fires out ≠ 0%nat.
Proof.
  unfold handshake_fires. intros Hin Hz.
  assert (Hf : In (AFire (EvHandshake p agent)) (List.filter is_handshake_fire out))
    by (apply List.filter_In; auto).
  destruct (List.filter is_handshake_fire out); [done|discriminate].
Qed.

Section Reach.
Context `{Externals}.

Lemma Inv_new cfg remote nonce window :
  Inv (new_NetworkAgent cfg remote nonce window).
Proof.
  unfold Inv, flags_ok, pings_ok, known_ok. cbn.
  split_and?; first [done | apply well_keyed_empty].
Qed.

(** A step from a state with the invariant completes. *)
Lemma step_total env ev a :
  Inv a → enabled a ev = true →
  ∃ a' out, step env ev a = Ok (tt, a', out) ∧ Inv a' ∧ fires_ok a a' out.
Proof.
  intros HI Hen. destruct (wp_inv _ _ _ (step_spec env ev a HI Hen))
    as ([] & a' & out & Heq & HI' & Hf). eauto.
Qed.

Lemma Reachable_Inv a tr :
  Reachable a tr →
  Inv a ∧ (handshake_fires tr ≤ 1)%nat
  ∧ (verackReceived a = false → handshake_fires tr = 0%nat).
Proof.
  induction 1 as [|a tr env ev a' out _ (HI & Hle & Hz) Hen Hstep].
  - split; [apply Inv_new|]. cbn. split; [lia|done].
  - destruct (step_total env ev a HI Hen) as (a2 & out2 & Heq & HI' & Hf1 & Hf2 & Hf3).
    rewrite Hstep in Heq. injection Heq as <- <-. split; [done|].
    rewrite handshake_fires_app.
    destruct (verackReceived a) eqn:Hv.
    + destruct (Hf1 eq_refl) as [-> ->]. split; [lia|done].
    + rewrite (Hz eq_refl). split; [lia|].
      intros Hv'. destruct (decide (handshake_fires out = 0%nat)) as [->|Hne]; [done|].
      destruct (Hf3 Hne). congruence.
Qed.

Lemma run_Reachable evs a tr a' tr' :
  Reachable a tr → run evs a tr = Some (a', tr') → Reachable a' tr'.
Proof.
  revert a tr. induction evs as [|[env ev] evs IH]; intros a tr Hr; cbn.
  - by intros [= <- <-].
  - destruct (enabled a ev) eqn:Hen; [|done].
    destruct (step env ev a) as [[[[] a1] o1]|e] eqn:Hs; [|done].
    apply IH. by eapply Reachable_step.
Qed.
End Reach.

(** The sample runs are runs of the agent. *)
Lemma Sample_established_reachable :
  Reachable (H := Sample.sample_externals) Sample.established Sample.after_handshake.2.
Proof.
  apply (run_Reachable Sample.handshake_run Sample.fresh []).
  - apply Reachable_new.
  - vm_compute. reflexivity.
Qed.

Lemma Sample_after_check_reachable :
  Reachable (H := Sample.sample_externals) Sample.after_check.1 Sample.after_check.2.
Proof.
  apply (run_Reachable (Sample.handshake_run ++ [(Sample.env0, Interval_connectivity)])
           Sample.fresh []).
  - apply Reachable_new.
  - vm_compute. reflexivity.
Qed.

(** ** The agent as the observers of 'handshake' see it *)

Ltac event_cases ev :=
  destruct ev as [| ? | | [?|?|?|? ?|?|?] | | | ? | | |]; cbn [step onMessage];
  unfold onVersion, onVerAck, onAddr, onGetAddr, onPing, onPong, relayAddresses,
    versionTimeout, verackTimeout, pingTimeout, checkConnectivity, announceAddr.

Ltac in_cases :=
  repeat match goal with
  | Hin : _ ∨ _ |- _ => destruct Hin as [Hin|Hin]
  | Hin : False |- _ => destruct Hin
  | Hin : AFire (EvHandshake _ _) = AFire (EvHandshake _ _) |- _ =>
      injection Hin as <- <-
  | Hin : _ = AFire _ |- _ => discriminate Hin
  end.

Section Snapshot.
Context `{Externals}.

Lemma step_snapshot env ev a :
  Inv a → enabled a ev = true → wp (step env ev) a snapshot_post.
Proof.
  destruct a as [cfg cn [cpa cl] pr known [touts ints] vr var vs vas att pav pcn pt q lim].
  unfold snapshot_post, Inv, flags_ok, pings_ok, known_ok.
  intros [(Hf1 & Hf2 & Hf3) [[Hp1 Hp2] Hk]] Hen. agent_simpl.
  event_cases ev; cbn [enabled] in Hen;
    try apply bool_decide_eq_true in Hen; agent_simpl.
  3: unfold relayNow.
  all: wp_run.
  all: inv_simpl; hyp_simpl; cbn [app In]; intros ? ? Hin; in_cases.
  all: agent_simpl; hyp_simpl; done.
Qed.

Lemma step_observed env ev a tr a' out :
  Reachable a tr → enabled a ev = true → step env ev a = Ok (tt, a', out) →
  snapshot_post tt a' out.
Proof.
  intros (HI & _)%Reachable_Inv Hen Hstep.
  destruct (wp_inv _ _ _ (step_snapshot env ev a HI Hen))
    as ([] & a2 & out2 & Heq & Hpost).
  rewrite Hstep in Heq. by injection Heq as <- <-.
Qed.

Lemma Reachable_snapshot a tr : Reachable a tr → snapshot_post tt a tr.
Proof.
  induction 1 as [|a tr env ev a' out Hr IH Hen Hstep]; intros p agent Hin.
  - destruct Hin.
  - apply in_app_or in Hin as [Hin|Hin]; [by apply IH|].
    by apply (step_observed env ev a tr a' out Hr Hen Hstep).
Qed.
End Snapshot.

(** C8. At every reachable state verackSent implies peerAddressVerified,
    and no enabled event makes a handler throw from there: in particular the
    assertion at the top of the verack-sending routine never fails. *)
Theorem verackSent_implies_verified `{Externals} (a : Agent) (tr : list Action) :
  Reachable a tr →
  (verackSent a = true → peerAddressVerified a = true)
  ∧ (∀ env ev, enabled a ev = true →
       ∃ a' out, step env ev a = Ok (tt, a', out)).
Proof.
  intros (HI & _)%Reachable_Inv. split.
  - apply HI.
  - intros env ev Hen. destruct (step_total env ev a HI Hen) as (a' & out & ? & _).
    eauto.
Qed.

Lemma verackSent_implies_verified_witness :
  Reachable (H := Sample.sample_externals) Sample.established Sample.after_handshake.2
  ∧ verackSent Sample.established = true
  ∧ peerAddressVerified Sample.established = true.
Proof.
  split; [exact Sample_established_reachable|]. split; [vm_compute; reflexivity|].
  apply (verackSent_implies_verified _ _ Sample_established_reachable).
  vm_compute. reflexivity.
Defined.

(** C2. For every agent and every sequence of events the 'handshake'
    observer event fires at most once; and when it fires both verackSent
    and verackReceived are true: the agent handed to the observers with the
    event has both flags set, and so has the agent at the end of the handler
    run that fired it. *)
Theorem handshake_event_fires_once `{Externals} (a : Agent) (tr : list Action) :
  Reachable a tr →
  (handshake_fires tr ≤ 1)%nat
  ∧ (∀ p agent,
       In (AFire (EvHandshake p agent)) tr →
       verackSent agent = true ∧ verackReceived agent = true)
  ∧ (∀ env ev a' out p agent,
       enabled a ev = true → step env ev a = Ok (tt, a', out) →
       In (AFire (EvHandshake p agent)) out →
       verackSent a' = true ∧ verackReceived a' = true).
Proof.
  intros Hr. destruct (Reachable_Inv _ _ Hr) as (HI & Hle & _).
  split; [done|]. split.
  - intros p agent Hin.
    destruct (Reachable_snapshot a tr Hr p agent Hin) as (? & ? & _). done.
  - intros env ev a' out p agent Hen Hstep Hin.
    destruct (step_total env ev a HI Hen) as (a2 & out2 & Heq & _ & _ & _ & Hf3).
    rewrite Hstep in Heq. injection Heq as <- <-.
    destruct (Hf3 (handshake_fires_In _ _ _ Hin)). done.
Qed.

Lemma handshake_event_fires_once_witness :
  Reachable (H := Sample.sample_externals) Sample.established Sample.after_handshake.2
  ∧ handshake_fires Sample.after_handshake.2 = 1%nat
  ∧ (∀ p agent,
       In (AFire (EvHandshake p agent)) Sample.after_handshake.2 →
       verackSent agent = true ∧ verackReceived agent = true).
Proof.
  split; [exact Sample_established_reachable|].
  split; [vm_compute; reflexivity|].
  apply (handshake_event_fires_once _ _ Sample_established_reachable).
Defined.

(** C1. A frame other than VERSION delivered while versionReceived is false,
    and a frame other than VERACK and VERSION delivered while versionReceived
    is true and verackReceived is false, leaves the agent's state as it was
    and makes the handler do nothing but log: no frame is sent. This holds
    for the pong handler too, which does not call the admitter: before the
    remote's verack no ping is outstanding and no ping timer is pending. *)
Theorem early_frames_are_dropped `{Externals} (a : Agent) (tr : list Action)
    (env : Env) (msg : Message) :
  Reachable a tr →
  (versionReceived a = false ∧ msg_type msg ≠ VERSION)
  ∨ (versionReceived a = true ∧ verackReceived a = false
     ∧ msg_type msg ≠ VERACK ∧ msg_type msg ≠ VERSION) →
  ∃ out, step env (Recv msg) a = Ok (tt, a, out)
         ∧ Forall (λ x, is_log x = true) out.
Proof.
  intros (HI & _)%Reachable_Inv Hcase.
  assert (Hvar : verackReceived a = false).
  { destruct Hcase as [[Hv _]|(_ & Hv & _)]; [|done].
    destruct HI as [(Hf1 & _) _]. destruct (verackReceived a); [|done].
    rewrite Hf1 in Hv; done. }
  destruct HI as (_ & [Hp1 Hp2] & _). destruct (Hp1 Hvar) as [Hpt _].
  destruct a as [cfg cn [cpa cl] pr known [touts ints] vr var vs vas att pav pcn pt q lim].
  cbn in Hcase, Hvar, Hpt, Hp2. subst var pt.
  destruct msg as [m|m|l|pm sm|n|n]; cbn [step onMessage].
  6: { (* pong *)
    assert (Hnone : touts !! ping_name n = None).
    { destruct (touts !! ping_name n) eqn:Ht; [|done].
      destruct (Hp2 n) as [? Hs]; [eauto|]. by rewrite lookup_empty in Hs. }
    exists []. split; [|constructor].
    unfold onPong, mbind, M_bind, timers_clearTimeout, modify, get. agent_simpl.
    rewrite lookup_empty. unfold mret, M_ret, set_timers, Timers_clearTimeout.
    agent_simpl. by rewrite (delete_id _ _ Hnone). }
  all: destruct Hcase as [[-> Hty]|(-> & _ & Hty1 & Hty2)]; try done.
  all: eexists; (split; [reflexivity|repeat constructor]).
Qed.

Lemma early_frames_are_dropped_witness :
  ∃ out, step (H := Sample.sample_externals) Sample.env0 (Recv (MsgPong 9%N)) Sample.fresh
         = Ok (tt, Sample.fresh, out)
         ∧ Forall (λ x, is_log x = true) out.
Proof.
  apply (early_frames_are_dropped Sample.fresh [] Sample.env0 (MsgPong 9%N)).
  - apply Reachable_new.
  - left. split; [reflexivity|discriminate].
Defined.

(** C3, as stated, fails: after a connectivity check on a channel that has
    received a message within the last [CONNECTIVITY_CHECK_INTERVAL], the
    nonce is in pingTimes and no [ping_<nonce>] timer is pending. *)
Lemma ping_entry_without_timer :
  ¬ (∀ (a : Agent) (tr : list Action),
       Reachable (H := Sample.sample_externals) a tr →
       ∀ nonce, is_Some (pingTimes a !! nonce) →
                is_Some (timeouts (timers a) !! ping_name nonce)).
Proof.
  intros Hall.
  specialize (Hall _ _ Sample_after_check_reachable 9%N).
  assert (Hin : pingTimes Sample.after_check.1 !! 9%N = Some 100000)
    by (vm_compute; reflexivity).
  assert (Hout : timeouts (timers Sample.after_check.1) !! ping_name 9 = None)
    by (vm_compute; reflexivity).
  rewrite Hin, Hout in Hall. destruct Hall as [? ?]; [eauto|discriminate].
Qed.

Section PingsKept.
Context `{Externals}.

Lemma step_pings_kept env ev a :
  Inv a → enabled a ev = true → wp (step env ev) a (pings_kept ev a).
Proof.
  destruct a as [cfg cn [cpa cl] pr known [touts ints] vr var vs vas att pav pcn pt q lim].
  unfold pings_kept, Inv, flags_ok, pings_ok, known_ok.
  intros [(Hf1 & Hf2 & Hf3) [[Hp1 Hp2] Hk]] Hen. agent_simpl.
  event_cases ev; cbn [enabled] in Hen;
    try apply bool_decide_eq_true in Hen; agent_simpl.
  3: unfold relayNow.
  all: wp_run.
  all: inv_simpl; hyp_simpl; intros ? Hpong Hexpiry; split; intros Hin.
  all: try done.
  all: try (by left).
  all: try (by right).
  all: try left.
  all: rewrite ?lookup_insert_is_Some', ?lookup_delete_is_Some.
  all: try (by auto).
  all: split; [|done]; intros Heq.
  all: first [ by apply ping_name_version in Heq
             | by apply ping_name_verack in Heq
             | by symmetry in Heq; apply ping_name_version in Heq
             | by symmetry in Heq; apply ping_name_verack in Heq
             | apply ping_name_inj in Heq; subst; congruence
             | subst; congruence ].
Qed.
End PingsKept.

(** C3, amended. At every reachable state every pending [ping_<nonce>]
    timer has its nonce in pingTimes. A connectivity check whose ping is
    sent records the nonce in pingTimes with the current time, and arms
    [ping_<nonce>] (at PING_TIMEOUT) exactly when the channel's last message
    is older than now − CONNECTIVITY_CHECK_INTERVAL; otherwise it leaves
    the timers as they were. Whatever happens next, a nonce in pingTimes
    stays there unless a pong for that nonce is processed or its timer
    expires, and a pending [ping_<nonce>] timer stays pending unless a pong
    for that nonce is processed, the timer expires or the channel goes
    down. *)
Theorem ping_timers_tracked `{Externals} (a : Agent) (tr : list Action) :
  Reachable a tr →
  (∀ nonce, is_Some (timeouts (timers a) !! ping_name nonce) →
            is_Some (pingTimes a !! nonce))
  ∧ (∀ env a' out,
       step env Interval_connectivity a = Ok (tt, a', out) →
       sendOk env (FPing (randomUint32 env)) = true →
       pingTimes a' !! randomUint32 env = Some (now env)
       ∧ (lastMessageReceivedAt env
            < now env - NetworkAgent.CONNECTIVITY_CHECK_INTERVAL →
          timeouts (timers a') !! ping_name (randomUint32 env)
            = Some NetworkAgent.PING_TIMEOUT)
       ∧ (¬ lastMessageReceivedAt env
              < now env - NetworkAgent.CONNECTIVITY_CHECK_INTERVAL →
          timers a' = timers a))
  ∧ (∀ env ev a' out nonce,
       enabled a ev = true → step env ev a = Ok (tt, a', out) →
       ev ≠ Recv (MsgPong nonce) → ev ≠ Timeout_ping nonce →
       (is_Some (pingTimes a !! nonce) → is_Some (pingTimes a' !! nonce))
       ∧ (is_Some (timeouts (timers a) !! ping_name nonce) →
          is_Some (timeouts (timers a') !! ping_name nonce)
          ∨ (closed (channel a) = false ∧ closed (channel a') = true))).
Proof.
  intros (HI & _)%Reachable_Inv. split; [apply HI|]. split.
  - intros env a' out Hstep Hok. revert Hstep.
    cbn [step]. unfold checkConnectivity, channel_send, mbind, M_bind, emit, mret, M_ret.
    rewrite Hok. cbn [negb]. unfold modify, timers_setTimeout, modify.
    case_bool_decide as Hlt; intros [= <- <-]; agent_simpl.
    + rewrite !lookup_insert_eq. split_and?; [done|done|]. intros []. done.
    + rewrite lookup_insert_eq. split_and?; [done| |done]. intros. done.
  - intros env ev a' out nonce Hen Hstep.
    destruct (wp_inv _ _ _ (step_pings_kept env ev a HI Hen))
      as ([] & a2 & out2 & Heq & Hkept).
    rewrite Hstep in Heq. injection Heq as <- <-. apply Hkept.
Qed.

Lemma Sample_after_silent_check_reachable :
  Reachable (H := Sample.sample_externals) Sample.after_silent_check.1
    Sample.after_silent_check.2.
Proof.
  apply (run_Reachable
           (Sample.handshake_run ++ [(Sample.env_silent, Interval_connectivity)])
           Sample.fresh []).
  - apply Reachable_new.
  - vm_compute. reflexivity.
Qed.

Lemma ping_timers_tracked_witness :
  Reachable (H := Sample.sample_externals) Sample.after_silent_check.1
    Sample.after_silent_check.2
  ∧ timeouts (timers Sample.after_silent_check.1) !! ping_name 9
    = Some NetworkAgent.PING_TIMEOUT
  ∧ is_Some (pingTimes Sample.after_silent_check.1 !! 9%N)
  ∧ ∃ a' out,
      step (H := Sample.sample_externals) Sample.env0 (Recv (MsgPing 3%N))
        Sample.after_silent_check.1 = Ok (tt, a', out)
      ∧ is_Some (pingTimes a' !! 9%N)
      ∧ (is_Some (timeouts (timers a') !! ping_name 9)
         ∨ (closed (channel Sample.after_silent_check.1) = false
            ∧ closed (channel a') = true)).
Proof.
  pose proof (ping_timers_tracked (H := Sample.sample_externals) _ _
                Sample_after_silent_check_reachable) as (Htracked & _ & Hkept).
  assert (Htimer : timeouts (timers Sample.after_silent_check.1) !! ping_name 9
                   = Some NetworkAgent.PING_TIMEOUT) by (vm_compute; reflexivity).
  assert (Hentry : is_Some (pingTimes Sample.after_silent_check.1 !! 9%N)).
  { apply Htracked. rewrite Htimer. eauto. }
  split; [exact Sample_after_silent_check_reachable|].
  split; [exact Htimer|]. split; [exact Hentry|].
  destruct (step (H := Sample.sample_externals) Sample.env0 (Recv (MsgPing 3%N))
              Sample.after_silent_check.1) as [[[[] a'] out]|e] eqn:Hstep;
    [|vm_compute in Hstep; discriminate Hstep].
  exists a', out. split; [reflexivity|].
  destruct (Hkept Sample.env0 (Recv (MsgPing 3%N)) a' out 9%N eq_refl Hstep)
    as [Hk1 Hk2]; [discriminate..|].
  split; [by apply Hk1|]. apply Hk2. rewrite Htimer. eauto.
Defined.

(** C4, as stated, fails: a pong whose send reports failure closes nothing. *)
Lemma failed_pong_send_is_dropped :
  ¬ (∀ (a : Agent) (tr : list Action) env ev a' out f,
       Reachable (H := Sample.sample_externals) a tr →
       enabled a ev = true →
       step (H := Sample.sample_externals) env ev a = Ok (tt, a', out) →
       In (ASend f false) out → frame_type f ≠ VERSION →
       ∃ ty, In (AClose ty) out).
Proof.
  intros Hall.
  destruct (Hall Sample.established _ Sample.env_fail (Recv (MsgPing 3%N))
              Sample.established [ASend (FPong 3%N) false] (FPong 3%N)
              Sample_established_reachable) as [ty Hin].
  - reflexivity.
  - vm_compute. reflexivity.
  - left. reflexivity.
  - discriminate.
  - destruct Hin as [Hin|[]]. discriminate.
Qed.

(** C4, amended. Of the sends after the version message only the ping send
    is inspected: when it reports failure the agent closes the channel with
    SENDING_PING_MESSAGE_FAILED. What the verack, addr, getAddr and pong
    sends report is ignored: every handler ends in the same state and does
    the same things, closes included, as when those sends succeed. *)
Theorem only_ping_send_is_checked `{Externals} (env : Env) (a : Agent) :
  (sendOk env (FPing (randomUint32 env)) = false →
   step env Interval_connectivity a
   = Ok (tt, closed_state a,
         [ASend (FPing (randomUint32 env)) false;
          AClose CloseType.SENDING_PING_MESSAGE_FAILED]))
  ∧ (∀ ev, same_run (step env ev a) (step (unchecked_sends_succeed env) ev a)).
Proof.
  split.
  - intros Hfail. cbn [step]. unfold checkConnectivity, mbind, M_bind.
    rewrite channel_send_eq, Hfail. cbn [negb]. by rewrite channel_close_eq.
  - intros ev. apply step_sim.
Qed.

Lemma only_ping_send_is_checked_witness :
  step (H := Sample.sample_externals) Sample.env_fail Interval_connectivity
    Sample.established
  = Ok (tt, closed_state Sample.established,
        [ASend (FPing 9%N) false; AClose CloseType.SENDING_PING_MESSAGE_FAILED]).
Proof.
  apply (only_ping_send_is_checked Sample.env_fail Sample.established).
  reflexivity.
Defined.

(** ** Address relay *)

Section Relay.
Context `{Externals}.

(** [_relayNow] in closed form. *)
Lemma relayNow_eq env a :
  relayNow env a =
  let '(addresses, q) :=
    ThrottledQueue_dequeueMulti NetworkAgent.MAX_ADDR_RELAY_PER_MESSAGE
      (availableNow env) (addrQueue a) in
  let filtered := List.filter (relay_filter env (knownAddresses a)) addresses in
  match filtered with
  | [] => Ok (tt, set_addrQueue q a, [])
  | _ :: _ =>
      Ok (tt,
          set_knownAddresses (add_all filtered (knownAddresses a)) (set_addrQueue q a),
          [ASend (FAddr filtered) (sendOk env (FAddr filtered))])
  end.
Proof.
  unfold relayNow, mbind, M_bind, get.
  destruct (ThrottledQueue_dequeueMulti _ _ _) as [addresses q]. cbn [modify].
  destruct addresses as [|x l]; [by destruct a|].
  rewrite bool_decide_eq_false_2 by done.
  destruct (List.filter _ (x :: l)) as [|y l'] eqn:Hf.
  - rewrite bool_decide_eq_false_2 by (cbn; lia). by destruct a.
  - rewrite bool_decide_eq_true_2 by done.
    rewrite channel_send_eq. by destruct a.
Qed.

(** The filter of [_relayNow] computes the relay condition, given that the
    known entry found for an address has the address's protocol. *)
Lemma relay_filter_condition env known addr :
  well_keyed known →
  (∀ x y, hashCode x = hashCode y → protocol x = protocol y) →
  relay_filter env known addr = true ↔ relay_condition env known addr.
Proof.
  intros Hk Hproto. unfold relay_filter, relay_condition.
  assert (Hsame : ∀ k, HashSet_get addr known = Some k → protocol k = protocol addr).
  { intros k Hget. apply Hproto. by apply Hk. }
  rewrite <- bool_decide_and.
  case_bool_decide as H1; [split; [done|by intros (Hn & _)]|].
  case_bool_decide as H2; [split; [done|by intros (_ & Hn & _)]|].
  rewrite andb_true_iff, negb_true_iff. split.
  - intros [Hseed Hc]. split_and?; [done..|].
    destruct (HashSet_get addr known) as [k|] eqn:Hget; [|by left].
    apply orb_true_iff in Hc as [Hd|Ht].
    + rewrite <- bool_decide_and in Hd. apply bool_decide_eq_true in Hd as [Hp Hd].
      right; left. exists k. split_and?; [done| |done]. by rewrite (Hsame k).
    + apply bool_decide_eq_true in Ht. right; right. by exists k.
  - intros (_ & _ & Hseed & Hc). split; [done|].
    destruct Hc as [Hn|[(k & Hg & Hp & Hd)|(k & Hg & Ht)]].
    + by rewrite Hn.
    + rewrite Hg. apply orb_true_iff. left.
      rewrite <- bool_decide_and. apply bool_decide_eq_true.
      split; [|done]. by rewrite <- (Hsame k Hg).
    + rewrite Hg. apply orb_true_iff. right. by apply bool_decide_eq_true.
Qed.
End Relay.

(** C5. When the relay queue fires, a dequeued address is transmitted in
    the addr frame if and only if it is not a WebRTC address at distance
    ≥ MAX_DISTANCE, not a Dumb address, not a seed, and the peer does not
    know it, or the known entry is a WebRTC entry with strictly greater
    distance, or the known entry's timestamp is older than
    now − RELAY_THROTTLE; and every transmitted address is afterwards a
    member of knownAddresses. The known entry of an address is the one
    found under its hash code; hash codes tell protocols apart. *)
Theorem relay_transmits_iff_condition `{Externals} (a : Agent) (tr : list Action)
    (env : Env) (a' : Agent) (out : list Action) :
  Reachable a tr →
  (∀ x y, hashCode x = hashCode y → protocol x = protocol y) →
  step env Queue_fires a = Ok (tt, a', out) →
  (∀ addr,
     addr ∈ (ThrottledQueue_dequeueMulti NetworkAgent.MAX_ADDR_RELAY_PER_MESSAGE
               (availableNow env) (addrQueue a)).1 →
     transmitted out addr ↔ relay_condition env (knownAddresses a) addr)
  ∧ (∀ addr, transmitted out addr →
             is_Some (HashSet_get addr (knownAddresses a'))).
Proof.
  intros (HI & _)%Reachable_Inv Hproto. destruct HI as (_ & _ & Hk).
  cbn [step]. rewrite relayNow_eq.
  destruct (ThrottledQueue_dequeueMulti _ _ _) as [addresses q]. cbn [fst].
  cbv zeta. intros Hstep.
  assert (Hfilter : ∀ addr, addr ∈ addresses →
            addr ∈ List.filter (relay_filter env (knownAddresses a)) addresses
            ↔ relay_condition env (knownAddresses a) addr).
  { intros addr Hin. rewrite list_elem_of_In, List.filter_In, <- list_elem_of_In.
    rewrite (relay_filter_condition env _ addr Hk Hproto). naive_solver. }
  destruct (List.filter _ addresses) as [|y l] eqn:Hf;
    injection Hstep as <- <-.
  - split.
    + intros addr Hin. rewrite <- (Hfilter addr Hin). split.
      * intros (l & ok & [] & _).
      * intros []%elem_of_nil.
    + intros addr (l & ok & [] & _).
  - split.
    + intros addr Hin. rewrite <- (Hfilter addr Hin). split.
      * intros (l' & ok & [[= <- <-]|[]] & Hl). done.
      * intros Hl. exists (y :: l), (sendOk env (FAddr (y :: l))). split; [by left|done].
    + intros addr (l' & ok & [[= <- <-]|[]] & Hl). agent_simpl.
      apply (add_all_member (y :: l)). by right.
Qed.

(** ** Inbound addr batches *)

Section Addr.
Context `{Externals}.

(** The admitter lets everything through after the handshake. *)
Lemma canAcceptMessage_handshaken ty a :
  handshaken a → canAcceptMessage ty a = Ok (true, a, []).
Proof.
  intros [Hv Hva]. unfold canAcceptMessage, mbind, M_bind, get.
  by rewrite Hv, Hva.
Qed.

(** [_onAddr] after the handshake, in closed form. *)
Lemma onAddr_eq env l a :
  handshaken a →
  onAddr env l a =
  if bool_decide (NetworkAgent.MAX_ADDR_PER_MESSAGE < length l)%nat then
    Ok (tt, closed_state a,
        [ALog "Rejecting addr message - too many addresses";
         AClose CloseType.ADDR_MESSAGE_TOO_LARGE])
  else
    let '(within, limit) :=
      RateLimit_note (Z.of_nat (length l)) (now env) (addrLimit a) in
    let a1 := set_addrLimit limit a in
    if negb within then
      Ok (tt, closed_state a1,
          [ALog "Rejecting addr message - rate-limit exceeded";
           AClose CloseType.RATE_LIMIT_EXCEEDED])
    else
      match checked_prefix l with
      | (added, Some ty) =>
          Ok (tt,
              closed_state (set_knownAddresses (add_all added (knownAddresses a1)) a1),
              [AClose ty])
      | (added, None) =>
          let a2 := set_knownAddresses (add_all added (knownAddresses a1)) a1 in
          Ok (tt,
              if listenerCloses env (EvAddr l a2) then closed_state a2 else a2,
              [ABookAdd l; AFire (EvAddr l a2)])
      end.
Proof.
  intros Hh. unfold onAddr, mbind at 1, M_bind at 1.
  rewrite (canAcceptMessage_handshaken _ _ Hh). cbn [negb].
  case_bool_decide.
  { unfold mbind, M_bind, emit. by rewrite channel_close_eq. }
  unfold mbind at 1, M_bind at 1, get.
  destruct (RateLimit_note _ _ _) as [within limit].
  unfold mbind at 1, M_bind at 1, modify.
  destruct within; cbn [negb].
  2: { unfold mbind, M_bind, emit. by rewrite channel_close_eq. }
  unfold mbind at 1, M_bind at 1. rewrite checkAddresses_eq.
  destruct (checked_prefix l) as [added [ty|]]; cbn [negb].
  { reflexivity. }
  unfold fire, mbind, M_bind, emit, get. cbv zeta.
  destruct (listenerCloses env (EvAddr l _)); [by rewrite channel_closes_eq|done].
Qed.

Lemma checked_prefix_failure l added ty :
  checked_prefix l = (added, Some ty) →
  ty = CloseType.INVALID_ADDR ∨ ty = CloseType.ADDR_NOT_GLOBALLY_REACHABLE.
Proof.
  revert added. induction l as [|addr rest IH]; intros added; cbn; [done|].
  destruct (negb (verifySignature addr)); [intros [= _ <-]; by left|].
  destruct (_ && _); [intros [= _ <-]; by right|].
  destruct (checked_prefix rest) as [added' failure]. intros [= _ ->]. eauto.
Qed.

(** The loop stops at the first address that fails a check, having
    inserted those before it. *)
Lemma checked_prefix_first_failure pre bad post :
  Forall (λ x, addr_passes x = true) pre → addr_passes bad = false →
  checked_prefix (pre ++ bad :: post)
  = (pre, Some (if negb (verifySignature bad) then CloseType.INVALID_ADDR
                else CloseType.ADDR_NOT_GLOBALLY_REACHABLE)).
Proof.
  unfold addr_passes. intros Hpre Hbad.
  induction Hpre as [|x pre Hx _ IH]; cbn.
  - destruct (verifySignature bad); cbn in *; [|done].
    apply negb_false_iff in Hbad. by rewrite Hbad.
  - apply andb_true_iff in Hx as [-> Hx]. cbn.
    apply negb_true_iff in Hx. by rewrite Hx, IH.
Qed.

Lemma checked_prefix_all_pass l :
  Forall (λ x, addr_passes x = true) l → checked_prefix l = (l, None).
Proof.
  unfold addr_passes. induction 1 as [|x l Hx _ IH]; cbn; [done|].
  apply andb_true_iff in Hx as [-> Hx]. cbn.
  apply negb_true_iff in Hx. by rewrite Hx, IH.
Qed.
End Addr.

(** C6. For an addr message that the admitter lets through: a batch longer
    than MAX_ADDR_PER_MESSAGE (1000) closes the channel with
    ADDR_MESSAGE_TOO_LARGE; a batch of exactly that length is not closed
    for its size; and a batch within the size bound that the inbound rate
    limiter refuses closes the channel with RATE_LIMIT_EXCEEDED. *)
Theorem addr_batch_limits `{Externals} (env : Env) (a : Agent) (l : list PeerAddress) :
  handshaken a →
  ((NetworkAgent.MAX_ADDR_PER_MESSAGE < length l)%nat →
   step env (Recv (MsgAddr l)) a
   = Ok (tt, closed_state a,
         [ALog "Rejecting addr message - too many addresses";
          AClose CloseType.ADDR_MESSAGE_TOO_LARGE]))
  ∧ (length l = NetworkAgent.MAX_ADDR_PER_MESSAGE →
     ∃ a' out, step env (Recv (MsgAddr l)) a = Ok (tt, a', out)
               ∧ ¬ In (AClose CloseType.ADDR_MESSAGE_TOO_LARGE) out)
  ∧ ((length l ≤ NetworkAgent.MAX_ADDR_PER_MESSAGE)%nat →
     (RateLimit_note (Z.of_nat (length l)) (now env) (addrLimit a)).1 = false →
     step env (Recv (MsgAddr l)) a
     = Ok (tt,
           closed_state
             (set_addrLimit
                (RateLimit_note (Z.of_nat (length l)) (now env) (addrLimit a)).2 a),
           [ALog "Rejecting addr message - rate-limit exceeded";
            AClose CloseType.RATE_LIMIT_EXCEEDED])).
Proof.
  intros Hh. cbn [step onMessage]. rewrite (onAddr_eq env l a Hh). split_and?.
  - intros Hlen. by rewrite bool_decide_eq_true_2.
  - intros Hlen. rewrite bool_decide_eq_false_2 by lia.
    destruct (RateLimit_note _ _ _) as [within limit]. cbv zeta.
    destruct within; cbn [negb].
    + destruct (checked_prefix l) as [added [ty|]] eqn:Hp.
      * do 2 eexists. split; [done|]. intros [[= ->]|[]].
        by destruct (checked_prefix_failure _ _ _ Hp).
      * do 2 eexists. split; [done|]. intros [|[|[]]]; done.
    + do 2 eexists. split; [done|]. intros [|[|[]]]; done.
  - intros Hlen Hnote. rewrite bool_decide_eq_false_2 by lia.
    destruct (RateLimit_note _ _ _) as [within limit]. cbn in Hnote. by subst.
Qed.

(** C9. Processing an inbound addr batch is not atomic on error: when the
    first address that fails a check (its signature, or being a WebSocket
    address that is not globally reachable) follows the addresses [pre], the
    channel closes with INVALID_ADDR or ADDR_NOT_GLOBALLY_REACHABLE, every
    address of [pre] has been inserted into knownAddresses, and neither the
    address book's add nor the 'addr' event has happened. Both happen when
    the whole batch passes, and the observers of 'addr' are handed an agent
    that knows the whole batch. *)
Theorem addr_batch_not_atomic `{Externals} (env : Env) (a : Agent)
    (pre : list PeerAddress) (bad : PeerAddress) (post : list PeerAddress) :
  handshaken a →
  (length (pre ++ bad :: post) ≤ NetworkAgent.MAX_ADDR_PER_MESSAGE)%nat →
  (RateLimit_note (Z.of_nat (length (pre ++ bad :: post))) (now env) (addrLimit a)).1
    = true →
  Forall (λ x, addr_passes x = true) pre →
  addr_passes bad = false →
  ∃ a',
    step env (Recv (MsgAddr (pre ++ bad :: post))) a
    = Ok (tt, a',
          [AClose (if negb (verifySignature bad) then CloseType.INVALID_ADDR
                   else CloseType.ADDR_NOT_GLOBALLY_REACHABLE)])
    ∧ knownAddresses a' = add_all pre (knownAddresses a)
    ∧ (∀ addr, addr ∈ pre → is_Some (HashSet_get addr (knownAddresses a')))
    ∧ (∀ whole, Forall (λ x, addr_passes x = true) whole →
         (length whole ≤ NetworkAgent.MAX_ADDR_PER_MESSAGE)%nat →
         (RateLimit_note (Z.of_nat (length whole)) (now env) (addrLimit a)).1 = true →
         ∃ a'' agent,
           step env (Recv (MsgAddr whole)) a
           = Ok (tt, a'', [ABookAdd whole; AFire (EvAddr whole agent)])
           ∧ knownAddresses agent = add_all whole (knownAddresses a)).
Proof.
  intros Hh Hlen Hnote Hpre Hbad. cbn [step onMessage].
  rewrite (onAddr_eq env _ a Hh), bool_decide_eq_false_2 by lia.
  destruct (RateLimit_note _ _ _) as [within limit]. cbn in Hnote. subst within.
  cbv zeta. cbn [negb]. rewrite (checked_prefix_first_failure pre bad post Hpre Hbad).
  eexists. split; [done|]. agent_simpl. split; [done|]. split.
  - intros addr Hin. apply add_all_member. by right.
  - intros whole Hall Hlen' Hnote'.
    rewrite (onAddr_eq env _ a Hh), bool_decide_eq_false_2 by lia.
    destruct (RateLimit_note _ _ _) as [within' limit']. cbn in Hnote'. subst within'.
    cbv zeta. cbn [negb]. rewrite (checked_prefix_all_pass whole Hall).
    do 2 eexists. split; [reflexivity|]. by agent_simpl.
Qed.

(** ** The version retry *)

Section Retry.
Context `{Externals}.

(** One failed version send. *)
Lemma handshake_failed_send env a :
  versionSent a = false →
  sendOk env (FVersion (cfg_peerAddress (networkConfig a)) (headHash env)
                (challengeNonce a)) = false →
  handshake env a =
  let a1 := set_versionAttempts (versionAttempts a + 1) a in
  let sent := ASend (FVersion (cfg_peerAddress (networkConfig a)) (headHash env)
                       (challengeNonce a)) false in
  if bool_decide (NetworkAgent.VERSION_ATTEMPTS_MAX ≤ versionAttempts a + 1)
     || closed (channel a)
  then Ok (tt, closed_state a1,
           [sent; AClose CloseType.SENDING_OF_VERSION_MESSAGE_FAILED])
  else Ok (tt, a1, [sent; ARetryHandshake NetworkAgent.VERSION_RETRY_DELAY]).
Proof.
  intros Hvs Hfail. unfold handshake, mbind at 1, M_bind at 1, get.
  rewrite Hvs. unfold mbind at 1, M_bind at 1. rewrite channel_send_eq, Hfail.
  cbn [negb]. unfold mbind, M_bind, modify, get. agent_simpl. cbv zeta.
  destruct (_ || _); [by rewrite channel_close_eq|done].
Qed.

(** [k] failed sends in a row, while the counter stays below the maximum,
    each schedule a retry. *)
Lemma failed_sends_retry env k a tr :
  versionSent a = false → closed (channel a) = false →
  versionAttempts a + Z.of_nat k < NetworkAgent.VERSION_ATTEMPTS_MAX →
  sendOk env (FVersion (cfg_peerAddress (networkConfig a)) (headHash env)
                (challengeNonce a)) = false →
  ∃ a',
    run (replicate k (env, Call_handshake)) a tr
    = Some (a',
            tr ++ mjoin (replicate k
                    [ASend (FVersion (cfg_peerAddress (networkConfig a))
                              (headHash env) (challengeNonce a)) false;
                     ARetryHandshake NetworkAgent.VERSION_RETRY_DELAY]))
    ∧ versionAttempts a' = versionAttempts a + Z.of_nat k
    ∧ versionSent a' = false ∧ closed (channel a') = false
    ∧ networkConfig a' = networkConfig a ∧ challengeNonce a' = challengeNonce a.
Proof.
  revert a tr. induction k as [|k IH]; intros a tr Hvs Hcl Hlt Hfail.
  - exists a. cbn. rewrite app_nil_r. split_and?; [done|lia|done..].
  - cbn [replicate run enabled step].
    rewrite (handshake_failed_send env a Hvs Hfail), Hcl, orb_false_r.
    rewrite bool_decide_eq_false_2 by lia. cbv zeta.
    destruct (IH (set_versionAttempts (versionAttempts a + 1) a)
                (tr ++ [ASend (FVersion (cfg_peerAddress (networkConfig a))
                                 (headHash env) (challengeNonce a)) false;
                        ARetryHandshake NetworkAgent.VERSION_RETRY_DELAY]))
      as (a' & Hrun & Hatt & Hvs' & Hcl' & Hcfg & Hcn); agent_simpl;
      [done|done|lia|done|].
    exists a'. rewrite Hrun. cbn [mjoin list_join]. rewrite <- !app_assoc.
    split_and?; [done|lia|done..].
Qed.
End Retry.

(** C7. When the version send fails during handshake(), versionAttempts is
    incremented; then, if it has reached VERSION_ATTEMPTS_MAX (10) or the
    channel is closed, the channel closes with
    SENDING_OF_VERSION_MESSAGE_FAILED, and otherwise a retry of handshake()
    is scheduled after VERSION_RETRY_DELAY. Hence, for a fresh agent, each
    of the first nine consecutive failed sends schedules a retry and the
    tenth closes. *)
Theorem version_send_retry `{Externals} (env : Env) (a : Agent) :
  versionSent a = false →
  sendOk env (FVersion (cfg_peerAddress (networkConfig a)) (headHash env)
                (challengeNonce a)) = false →
  (NetworkAgent.VERSION_ATTEMPTS_MAX ≤ versionAttempts a + 1
   ∨ closed (channel a) = true →
   step env Call_handshake a
   = Ok (tt, closed_state (set_versionAttempts (versionAttempts a + 1) a),
         [ASend (FVersion (cfg_peerAddress (networkConfig a)) (headHash env)
                   (challengeNonce a)) false;
          AClose CloseType.SENDING_OF_VERSION_MESSAGE_FAILED]))
  ∧ (versionAttempts a + 1 < NetworkAgent.VERSION_ATTEMPTS_MAX
     ∧ closed (channel a) = false →
     step env Call_handshake a
     = Ok (tt, set_versionAttempts (versionAttempts a + 1) a,
           [ASend (FVersion (cfg_peerAddress (networkConfig a)) (headHash env)
                     (challengeNonce a)) false;
            ARetryHandshake NetworkAgent.VERSION_RETRY_DELAY]))
  ∧ (versionAttempts a = 0 ∧ closed (channel a) = false →
     ∃ a9,
       run (replicate 9 (env, Call_handshake)) a []
       = Some (a9,
               mjoin (replicate 9
                        [ASend (FVersion (cfg_peerAddress (networkConfig a))
                                  (headHash env) (challengeNonce a)) false;
                         ARetryHandshake NetworkAgent.VERSION_RETRY_DELAY]))
       ∧ step env Call_handshake a9
         = Ok (tt, closed_state (set_versionAttempts 10 a9),
               [ASend (FVersion (cfg_peerAddress (networkConfig a)) (headHash env)
                         (challengeNonce a)) false;
                AClose CloseType.SENDING_OF_VERSION_MESSAGE_FAILED])).
Proof.
  intros Hvs Hfail. split_and?.
  - intros Hc. cbn [step]. rewrite (handshake_failed_send env a Hvs Hfail). cbv zeta.
    destruct Hc as [Hmax| ->]; [|by rewrite orb_true_r].
    by rewrite bool_decide_eq_true_2.
  - intros [Hlt Hcl]. cbn [step]. rewrite (handshake_failed_send env a Hvs Hfail).
    cbv zeta. rewrite Hcl, bool_decide_eq_false_2 by lia. done.
  - intros [Hz Hcl].
    destruct (failed_sends_retry env 9 a [] Hvs Hcl) as
      (a9 & Hrun & Hatt & Hvs9 & Hcl9 & Hcfg & Hcn); [rewrite Hz; done|done|].
    exists a9. split; [done|]. cbn [step].
    rewrite handshake_failed_send; [|done|by rewrite Hcfg, Hcn].
    cbv zeta. rewrite Hcfg, Hcn, Hatt, Hz. done.
Qed.

(** ** The Hash primitive *)

(** C10. For every 32-byte Hash [h], [h.serialize()] gives a buffer of
    exactly SERIALIZED_SIZE (32) bytes, and [Hash.unserialize] of that
    buffer gives [h] back; for any [Buffer] that reads back what was
    written to a fresh buffer, and the [Primitive] constructor accepting a
    byte array of the required length. *)
Theorem Hash_serialize_roundtrip `{Serialization} (h : Hash) :
  Buffer_lawful → Primitive_lawful → Hash_wf h →
  ∃ buf buf',
    serialize h None = Ok buf
    ∧ byteLength buf = SERIALIZED_SIZE
    ∧ unserialize buf = Ok (h, buf').
Proof.
  destruct h as [bytes]. unfold Hash_wf. cbn [hash_bytes]. intros Hbuf Hprim Hlen.
  destruct (Hbuf bytes) as (buf & buf' & Hwrite & Hsize & Hread).
  specialize (Hprim bytes). rewrite Hlen in *.
  exists buf, buf'. unfold serialize, unserialize, Hash_new, serializedSize.
  cbn [default hash_bytes]. by rewrite Hwrite, Hread, Hprim.
Qed.

(** ** The claims at concrete inputs *)

Lemma Sample_hashCode_protocol x y :
  Sample.sample_hashCode x = Sample.sample_hashCode y → protocol x = protocol y.
Proof.
  unfold Sample.sample_hashCode.
  destruct (protocol x), (protocol y); cbn; intros Heq; by simplify_eq.
Qed.

Lemma Sample_queued_reachable :
  Reachable (H := Sample.sample_externals) Sample.queued.1 Sample.queued.2.
Proof.
  apply (run_Reachable
           (Sample.handshake_run
              ++ [(Sample.env0,
                   Call_relayAddresses [Sample.far_rtc; Sample.remote; Sample.newcomer])])
           Sample.fresh []).
  - apply Reachable_new.
  - vm_compute. reflexivity.
Qed.

Lemma relay_transmits_iff_condition_witness :
  Reachable (H := Sample.sample_externals) Sample.queued.1 Sample.queued.2
  ∧ relay_condition (H := Sample.sample_externals) Sample.env0
      (knownAddresses Sample.queued.1) Sample.newcomer
  ∧ is_Some (HashSet_get (H := Sample.sample_externals) Sample.newcomer
               (knownAddresses Sample.relayed.1)).
Proof.
  split; [exact Sample_queued_reachable|].
  destruct (relay_transmits_iff_condition (H := Sample.sample_externals)
              Sample.queued.1 Sample.queued.2 Sample.env0
              Sample.relayed.1 Sample.relayed.2
              Sample_queued_reachable Sample_hashCode_protocol)
    as [Hiff Hmember].
  { vm_compute. reflexivity. }
  assert (Hsent : transmitted Sample.relayed.2 Sample.newcomer).
  { exists [Sample.newcomer], true. split; [left; vm_compute; reflexivity|].
    apply list_elem_of_here. }
  split; [|by apply Hmember].
  apply Hiff; [|exact Hsent].
  vm_compute. do 2 apply list_elem_of_further. apply list_elem_of_here.
Defined.

Lemma addr_batch_limits_witness :
  handshaken Sample.established
  ∧ step (H := Sample.sample_externals) Sample.env0
      (Recv (MsgAddr (replicate 1001 Sample.remote))) Sample.established
    = Ok (tt, closed_state Sample.established,
          [ALog "Rejecting addr message - too many addresses";
           AClose CloseType.ADDR_MESSAGE_TOO_LARGE]).
Proof.
  assert (Hh : handshaken Sample.established) by (split; reflexivity).
  split; [exact Hh|].
  apply (addr_batch_limits (H := Sample.sample_externals) Sample.env0
           Sample.established (replicate 1001 Sample.remote) Hh).
  rewrite length_replicate. unfold NetworkAgent.MAX_ADDR_PER_MESSAGE. lia.
Defined.

Lemma addr_batch_not_atomic_witness :
  handshaken Sample.established
  ∧ ∃ a',
      step (H := Sample.sample_externals) Sample.env0
        (Recv (MsgAddr ([Sample.newcomer] ++ Sample.forged :: [Sample.remote])))
        Sample.established
      = Ok (tt, a', [AClose CloseType.INVALID_ADDR])
      ∧ is_Some (HashSet_get (H := Sample.sample_externals) Sample.newcomer
                   (knownAddresses a')).
Proof.
  assert (Hh : handshaken Sample.established) by (split; reflexivity).
  split; [exact Hh|].
  destruct (addr_batch_not_atomic (H := Sample.sample_externals) Sample.env0
              Sample.established [Sample.newcomer] Sample.forged [Sample.remote] Hh)
    as (a' & Hstep & _ & Hmember & _).
  - cbn. unfold NetworkAgent.MAX_ADDR_PER_MESSAGE. lia.
  - vm_compute. reflexivity.
  - repeat constructor.
  - vm_compute. reflexivity.
  - exists a'. split; [exact Hstep|]. apply Hmember, list_elem_of_here.
Defined.

Lemma version_send_retry_witness :
  versionSent Sample.fresh = false
  ∧ step (H := Sample.sample_externals) Sample.env_fail Call_handshake Sample.fresh
    = Ok (tt, set_versionAttempts 1 Sample.fresh,
          [ASend (FVersion Sample.me Sample.genesis Sample.our_nonce) false;
           ARetryHandshake NetworkAgent.VERSION_RETRY_DELAY]).
Proof.
  split; [reflexivity|].
  apply (version_send_retry (H := Sample.sample_externals) Sample.env_fail Sample.fresh).
  - reflexivity.
  - reflexivity.
  - split; [vm_compute; reflexivity|reflexivity].
Defined.

(** The cursor buffer reads back what was written to a fresh buffer. *)
Lemma Sample_buffer_lawful : Buffer_lawful (H := Sample.cursor_serialization).
Proof.
  intros array. cbn. unfold Sample.CursorBuffer_write, Sample.CursorBuffer_read.
  cbn [Sample.writePos Sample.readPos Sample.buf_bytes].
  rewrite length_replicate, decide_True by lia.
  rewrite take_0, drop_replicate, Nat.add_0_l, Nat.sub_diag. cbn [replicate app].
  rewrite app_nil_r. do 2 eexists. split; [done|]. cbn [Sample.buf_bytes].
  split; [done|]. by rewrite drop_0, take_ge.
Qed.

Lemma Sample_primitive_lawful : Primitive_lawful (H := Sample.cursor_serialization).
Proof. intros array. cbn. by rewrite decide_True. Qed.

Lemma Hash_serialize_roundtrip_witness :
  Hash_wf Sample.genesis
  ∧ ∃ buf buf',
      serialize (H := Sample.cursor_serialization) Sample.genesis None = Ok buf
      ∧ byteLength buf = SERIALIZED_SIZE
      ∧ unserialize buf = Ok (Sample.genesis, buf').
Proof.
  split; [reflexivity|].
  apply (Hash_serialize_roundtrip (H := Sample.cursor_serialization) Sample.genesis).
  - exact Sample_buffer_lawful.
  - exact Sample_primitive_lawful.
  - reflexivity.
Defined.

(** * Further properties of the agent *)

(** ** Duplicates and rejected handshake messages *)

(** X1. [_onVersion]: once a version message has been received, a further
    version message changes nothing and sends nothing; it is only logged. *)
Theorem duplicate_version_ignored `{Externals} (env : Env) (msg : VersionMessage)
    (a : Agent) :
  versionReceived a = true →
  ∃ out, step env (Recv (MsgVersion msg)) a = Ok (tt, a, out)
         ∧ Forall (λ x, is_log x = true) out.
Proof.
  destruct a as [cfg cn ch pr known tm vr var vs vas att pav pcn pt q lim].
  cbn [versionReceived]. intros ->.
  destruct var; eexists; (split; [reflexivity|]); repeat constructor.
Qed.

Lemma duplicate_version_ignored_witness :
  ∃ out, step (H := Sample.sample_externals) Sample.env0 (Recv Sample.their_version)
           Sample.established = Ok (tt, Sample.established, out)
         ∧ Forall (λ x, is_log x = true) out.
Proof.
  apply (duplicate_version_ignored (H := Sample.sample_externals) Sample.env0
           (mkVersionMessage 2%N Sample.remote Sample.genesis Sample.genesis
              Sample.their_nonce) Sample.established).
  reflexivity.
Defined.

(** X2. [_onVerAck]: once a verack message has been received, a further
    verack message changes nothing and sends nothing; it is only logged. *)
Theorem duplicate_verack_ignored `{Externals} (env : Env) (msg : VerAckMessage)
    (a : Agent) :
  verackReceived a = true →
  ∃ out, step env (Recv (MsgVerAck msg)) a = Ok (tt, a, out)
         ∧ Forall (λ x, is_log x = true) out.
Proof.
  destruct a as [cfg cn ch pr known tm vr var vs vas att pav pcn pt q lim].
  cbn [verackReceived]. intros ->.
  destruct vr; eexists; (split; [reflexivity|]); repeat constructor.
Qed.

Lemma duplicate_verack_ignored_witness :
  ∃ out, step (H := Sample.sample_externals) Sample.env0 (Recv Sample.their_verack)
           Sample.established = Ok (tt, Sample.established, out)
         ∧ Forall (λ x, is_log x = true) out.
Proof.
  apply (duplicate_verack_ignored (H := Sample.sample_externals) Sample.env0
           (mkVerAckMessage 7%N 15%N) Sample.established).
  reflexivity.
Defined.

(** A run known by its weakest precondition. *)
Lemma wp_unit_eq (m : M unit) a a' out :
  wp m a (λ _ b o, b = a' ∧ o = out) → m a = Ok (tt, a', out).
Proof.
  unfold wp. destruct (m a) as [[[[] b] o]|e]; [|done]. by intros [-> ->].
Qed.

(** X3. [_onVersion]: a first version message that fails a check (protocol
    version, genesis hash, signature of the address, expected address, in
    this order) closes the channel with the reason of the first failed
    check, after a reject frame when the version is incompatible. Apart
    from the cleared version timer and the close, the agent is as before:
    no peer is created, versionReceived stays false, no event is fired and
    no handshake frame is sent. *)
Theorem bad_version_is_rejected `{Externals} (env : Env) (msg : VersionMessage)
    (a : Agent) :
  versionReceived a = false →
  version_acceptable a msg = false →
  step env (Recv (MsgVersion msg)) a
  = Ok (tt,
        closed_state (set_timers (Timers_clearTimeout "version" (timers a)) a),
        ALog "[VERSION]"
        :: (if Version_isCompatible (msg_version msg) then [] else [AReject VERSION])
        ++ [AClose
              (if negb (Version_isCompatible (msg_version msg))
               then CloseType.INCOMPATIBLE_VERSION
               else if negb (Hash_equals GENESIS_HASH (msg_genesisHash msg))
               then CloseType.DIFFERENT_GENESIS_BLOCK
               else if negb (verifySignature (msg_peerAddress msg))
               then CloseType.INVALID_PEER_ADDRESS_IN_VERSION_MESSAGE
               else CloseType.UNEXPECTED_PEER_ADDRESS_IN_VERSION_MESSAGE)]).
Proof.
  destruct a as [cfg cn [cpa cl] pr known [touts ints] vr var vs vas att pav pcn pt q lim].
  unfold version_acceptable. cbn [versionReceived channel chan_peerAddress].
  intros -> Hbad. cbn [step onMessage]. apply wp_unit_eq. unfold onVersion.
  wp_run; agent_simpl; cbn [negb andb app] in *;
    repeat match goal with
    | E : negb ?b = _ |- _ => destruct b; try discriminate E; clear E
    end;
    cbn [negb andb app] in *; try done.
Qed.

Lemma bad_version_is_rejected_witness :
  step (H := Sample.sample_externals) Sample.env0
    (Recv (MsgVersion (mkVersionMessage 1%N Sample.remote Sample.genesis
                         Sample.genesis Sample.their_nonce)))
    Sample.fresh
  = Ok (tt,
        closed_state
          (set_timers (Timers_clearTimeout "version" (timers Sample.fresh)) Sample.fresh),
        [ALog "[VERSION]"; AReject VERSION; AClose CloseType.INCOMPATIBLE_VERSION]).
Proof.
  apply (bad_version_is_rejected (H := Sample.sample_externals) Sample.env0
           (mkVersionMessage 1%N Sample.remote Sample.genesis Sample.genesis
              Sample.their_nonce) Sample.fresh).
  - reflexivity.
  - reflexivity.
Defined.

(** X4. [_onVerAck]: a first verack whose public key does not give the
    remote's peer id, or whose signature over (our peer id, our challenge
    nonce) does not verify, closes the channel with
    INVALID_PUBLIC_KEY_IN_VERACK_MESSAGE or, the key being right,
    INVALID_SIGNATURE_IN_VERACK_MESSAGE. Apart from the cleared verack timer
    and the close, the agent is as before: verackReceived stays false, the
    address is not verified, nothing is sent. *)
Theorem bad_verack_is_rejected `{Externals} (env : Env) (msg : VerAckMessage)
    (a : Agent) (remote : PeerAddress) :
  versionReceived a = true → verackReceived a = false →
  chan_peerAddress (channel a) = Some remote →
  verack_acceptable a remote msg = false →
  step env (Recv (MsgVerAck msg)) a
  = Ok (tt,
        closed_state (set_timers (Timers_clearTimeout "verack" (timers a)) a),
        [ALog "[VERACK]";
         AClose (if bool_decide (toPeerId (msg_publicKey msg) = peerId remote)
                 then CloseType.INVALID_SIGNATURE_IN_VERACK_MESSAGE
                 else CloseType.INVALID_PUBLIC_KEY_IN_VERACK_MESSAGE)]).
Proof.
  destruct a as [cfg cn [cpa cl] pr known [touts ints] vr var vs vas att pav pcn pt q lim].
  unfold verack_acceptable.
  cbn [versionReceived verackReceived channel chan_peerAddress networkConfig
       challengeNonce].
  intros -> -> -> Hbad. cbn [step onMessage]. apply wp_unit_eq. unfold onVerAck.
  wp_run; agent_simpl; cbn [negb andb app] in *;
    repeat match goal with
    | E : negb ?b = _ |- _ => destruct b; try discriminate E; clear E
    | E : Some _ = Some _ |- _ => injection E as <-
    end;
    cbn [negb andb app] in *; try done.
Qed.

Lemma bad_verack_is_rejected_witness :
  step (H := Sample.sample_externals) Sample.env0
    (Recv (MsgVerAck (mkVerAckMessage 7%N 16%N))) Sample.awaiting_verack
  = Ok (tt,
        closed_state
          (set_timers (Timers_clearTimeout "verack" (timers Sample.awaiting_verack))
             Sample.awaiting_verack),
        [ALog "[VERACK]"; AClose CloseType.INVALID_SIGNATURE_IN_VERACK_MESSAGE]).
Proof.
  apply (bad_verack_is_rejected (H := Sample.sample_externals) Sample.env0
           (mkVerAckMessage 7%N 16%N) Sample.awaiting_verack Sample.remote).
  - vm_compute. reflexivity.
  - vm_compute. reflexivity.
  - vm_compute. reflexivity.
  - vm_compute. reflexivity.
Defined.

(** ** Relay, address requests, ping and pong *)

Lemma enqueue_all `{Externals} l q :
  (length (queue q) + length l ≤ ThrottledQueue_maxSize (queue_args q))%nat →
  foldl (λ q x, ThrottledQueue_enqueue x q) q l
  = mkThrottledQueue (queue q ++ l) (stopped q) (queue_args q).
Proof.
  revert q. induction l as [|x l IH]; intros q Hroom; cbn [foldl].
  - rewrite app_nil_r. by destruct q.
  - cbn [length] in Hroom. unfold ThrottledQueue_enqueue at 2.
    rewrite bool_decide_eq_true_2 by lia.
    rewrite IH; cbn [queue stopped queue_args].
    + by rewrite <- app_assoc.
    + rewrite length_app. cbn [length]. lia.
Qed.

Lemma enqueue_all_stopped `{Externals} l q :
  stopped (foldl (λ q x, ThrottledQueue_enqueue x q) q l) = stopped q.
Proof.
  revert q. induction l as [|x l IH]; intros q; cbn [foldl]; [done|].
  rewrite IH. unfold ThrottledQueue_enqueue. by case_bool_decide.
Qed.

(** [relayAddresses] past its guard, with room in the queue, in closed
    form. *)
Lemma relayAddresses_eq `{Externals} (env : Env) (l : list PeerAddress) (a : Agent) :
  verackReceived a && versionSent a = true →
  (length (queue (addrQueue a)) + length l
   ≤ ThrottledQueue_maxSize (queue_args (addrQueue a)))%nat →
  step env (Call_relayAddresses l) a
  = Ok (tt,
        set_addrQueue
          (mkThrottledQueue (queue (addrQueue a) ++ l) (stopped (addrQueue a))
             (queue_args (addrQueue a))) a,
        []).
Proof.
  cbn [step]. unfold relayAddresses, mbind, M_bind, get, modify, mret, M_ret.
  destruct (verackReceived a), (versionSent a); cbn [negb orb andb];
    intros Hc Hroom; try discriminate Hc.
  by rewrite enqueue_all.
Qed.

(** X5. [relayAddresses] does nothing until the remote's verack has been
    received and our version has been sent; from then on, while the queue
    has room for them below its overall size cap, it appends the addresses,
    in order, behind what is already queued. It never sends anything
    itself. *)
Theorem relayAddresses_enqueues_in_order `{Externals} (env : Env)
    (l : list PeerAddress) (a : Agent) :
  (verackReceived a && versionSent a = false →
   step env (Call_relayAddresses l) a = Ok (tt, a, []))
  ∧ (verackReceived a && versionSent a = true →
     (length (queue (addrQueue a)) + length l
      ≤ ThrottledQueue_maxSize (queue_args (addrQueue a)))%nat →
     step env (Call_relayAddresses l) a
     = Ok (tt,
           set_addrQueue
             (mkThrottledQueue (queue (addrQueue a) ++ l) (stopped (addrQueue a))
                (queue_args (addrQueue a))) a,
           [])).
Proof.
  split; [|apply relayAddresses_eq].
  cbn [step]. unfold relayAddresses, mbind, M_bind, get, modify, mret, M_ret.
  by destruct (verackReceived a), (versionSent a).
Qed.

Lemma relayAddresses_enqueues_in_order_witness :
  step (H := Sample.sample_externals) Sample.env0
    (Call_relayAddresses [Sample.far_rtc; Sample.newcomer]) Sample.fresh
  = Ok (tt, Sample.fresh, [])
  ∧ ∃ a1,
      step (H := Sample.sample_externals) Sample.env0
        (Call_relayAddresses [Sample.far_rtc; Sample.newcomer]) Sample.queued.1
      = Ok (tt, a1, [])
      ∧ queue (addrQueue a1)
        = queue (addrQueue Sample.queued.1) ++ [Sample.far_rtc; Sample.newcomer].
Proof.
  split.
  - apply (relayAddresses_enqueues_in_order (H := Sample.sample_externals) Sample.env0
             [Sample.far_rtc; Sample.newcomer] Sample.fresh).
    reflexivity.
  - eexists. split.
    + apply (relayAddresses_enqueues_in_order (H := Sample.sample_externals)
               Sample.env0 [Sample.far_rtc; Sample.newcomer] Sample.queued.1).
      * reflexivity.
      * apply Nat.leb_le. vm_compute. reflexivity.
    + reflexivity.
Defined.

(** X6. Relay is first in, first out: after the handshake and with nothing
    queued, addresses handed to [relayAddresses], no more of them than the
    queue's overall size cap, and then dequeued by the next firing of the
    queue go out in the order given: the addr frame holds those of the
    first MAX_ADDR_RELAY_PER_MESSAGE (10) addresses, as far as the
    throttle allows, that pass the relay filter, in their order; no frame is
    sent when none passes, and the other addresses stay queued. *)
Theorem relay_is_first_in_first_out `{Externals} (env1 env2 : Env)
    (l : list PeerAddress) (a : Agent) :
  verackReceived a = true → versionSent a = true →
  queue (addrQueue a) = [] →
  (length l ≤ ThrottledQueue_maxSize (queue_args (addrQueue a)))%nat →
  ∃ a1 a2,
    step env1 (Call_relayAddresses l) a = Ok (tt, a1, [])
    ∧ step env2 Queue_fires a1
      = Ok (tt, a2,
            match
              List.filter (relay_filter env2 (knownAddresses a))
                (take (Nat.min (availableNow env2)
                         NetworkAgent.MAX_ADDR_RELAY_PER_MESSAGE) l)
            with
            | [] => []
            | x :: rest => [ASend (FAddr (x :: rest)) (sendOk env2 (FAddr (x :: rest)))]
            end)
    ∧ queue (addrQueue a2)
      = drop (Nat.min (availableNow env2) NetworkAgent.MAX_ADDR_RELAY_PER_MESSAGE) l.
Proof.
  intros Hva Hvs Hq Hroom.
  pose proof (relayAddresses_eq env1 l a) as Henq.
  rewrite Hva, Hvs, Hq in Henq. specialize (Henq eq_refl Hroom).
  cbn [app] in Henq.
  exists (set_addrQueue
            (mkThrottledQueue l (stopped (addrQueue a)) (queue_args (addrQueue a))) a).
  cbn [step] in *. rewrite relayNow_eq. unfold ThrottledQueue_dequeueMulti.
  agent_simpl. cbv zeta.
  destruct (List.filter _ _) as [|x rest]; eexists;
    (split; [exact Henq|]); (split; [reflexivity|]); by agent_simpl.
Qed.

Lemma relay_is_first_in_first_out_witness :
  ∃ a1 a2,
    step (H := Sample.sample_externals) Sample.env0
      (Call_relayAddresses [Sample.far_rtc; Sample.remote; Sample.newcomer])
      Sample.established = Ok (tt, a1, [])
    ∧ step (H := Sample.sample_externals) Sample.env0 Queue_fires a1
      = Ok (tt, a2, [ASend (FAddr [Sample.newcomer]) true]).
Proof.
  destruct (relay_is_first_in_first_out (H := Sample.sample_externals)
              Sample.env0 Sample.env0
              [Sample.far_rtc; Sample.remote; Sample.newcomer] Sample.established)
    as (a1 & a2 & H1 & H2 & _); [reflexivity..| |].
  - apply Nat.leb_le. vm_compute. reflexivity.
  - exists a1, a2. split; [exact H1|]. rewrite H2. vm_compute. reflexivity.
Defined.

(** X7. [_onGetAddr] after the handshake answers from the address book and
    leaves the agent as it was; unlike the relay it does not enter what it
    sends into the known addresses. It sends at most one addr frame and
    never an empty one: the addresses the book returned for the requested
    masks (at most MAX_ADDR_PER_MESSAGE asked for) that are not WebRTC
    addresses at MAX_DISTANCE and that the peer does not know or has known
    for longer than RELAY_THROTTLE. *)
Theorem getAddr_reply `{Externals} (env : Env) (protocolMask serviceMask : N)
    (a : Agent) :
  handshaken a →
  step env (Recv (MsgGetAddr protocolMask serviceMask)) a
  = Ok (tt, a,
        match
          List.filter (getAddr_filter env (knownAddresses a))
            (book_query env protocolMask serviceMask NetworkAgent.MAX_ADDR_PER_MESSAGE)
        with
        | [] => []
        | x :: rest => [ASend (FAddr (x :: rest)) (sendOk env (FAddr (x :: rest)))]
        end)
  ∧ (∀ addr,
       addr ∈ List.filter (getAddr_filter env (knownAddresses a))
                (book_query env protocolMask serviceMask
                   NetworkAgent.MAX_ADDR_PER_MESSAGE) →
       ¬ (protocol addr = RTC ∧ MAX_DISTANCE ≤ distance addr)
       ∧ (HashSet_get addr (knownAddresses a) = None
          ∨ ∃ knownAddress,
              HashSet_get addr (knownAddresses a) = Some knownAddress
              ∧ timestamp knownAddress < now env - NetworkAgent.RELAY_THROTTLE)).
Proof.
  intros Hh. split.
  - cbn [step onMessage]. unfold onGetAddr, mbind at 1, M_bind at 1.
    rewrite (canAcceptMessage_handshaken _ _ Hh). cbn [negb].
    unfold mbind at 1, M_bind at 1, get. cbv zeta.
    destruct (List.filter _ _) as [|x rest].
    + rewrite bool_decide_eq_false_2 by (cbn; lia). done.
    + rewrite bool_decide_eq_true_2 by done.
      unfold mbind, M_bind. by rewrite channel_send_eq.
  - intros addr [_ Hf]%list_elem_of_In%List.filter_In. revert Hf.
    unfold getAddr_filter. rewrite <- bool_decide_and.
    case_bool_decide as Hfar; [done|]. intros Hf. split; [done|].
    destruct (HashSet_get addr (knownAddresses a)) as [k|]; [|by left].
    right. exists k. split; [done|]. by apply bool_decide_eq_true in Hf.
Qed.

Lemma getAddr_reply_witness :
  step (H := Sample.sample_externals) Sample.env_book (Recv (MsgGetAddr 3%N 1%N))
    Sample.established
  = Ok (tt, Sample.established, [ASend (FAddr [Sample.newcomer]) true])
  ∧ ¬ (protocol Sample.newcomer = RTC
       ∧ MAX_DISTANCE (Externals := Sample.sample_externals)
         ≤ distance Sample.newcomer)
  ∧ (HashSet_get (H := Sample.sample_externals) Sample.newcomer
       (knownAddresses Sample.established) = None
     ∨ ∃ knownAddress,
         HashSet_get (H := Sample.sample_externals) Sample.newcomer
           (knownAddresses Sample.established) = Some knownAddress
         ∧ timestamp knownAddress
           < now Sample.env_book - NetworkAgent.RELAY_THROTTLE).
Proof.
  destruct (getAddr_reply (H := Sample.sample_externals) Sample.env_book 3%N 1%N
              Sample.established) as [Hstep Hfilter]; [split; reflexivity|].
  split.
  - rewrite Hstep. vm_compute. reflexivity.
  - apply Hfilter.
    assert (Hl : List.filter
                   (getAddr_filter (H := Sample.sample_externals) Sample.env_book
                      (knownAddresses Sample.established))
                   (book_query Sample.env_book 3%N 1%N
                      NetworkAgent.MAX_ADDR_PER_MESSAGE)
                 = [Sample.newcomer]) by (vm_compute; reflexivity).
    rewrite Hl. apply list_elem_of_here.
Defined.

(** X8. Ping and pong round trip: a connectivity check whose ping is sent
    at a time other than 0, answered by a pong with the same nonce at a
    later time, fires 'ping-pong' with the time that passed, and leaves the
    agent as it was before the check, except that an older entry and timer
    for that nonce are gone too. *)
Theorem ping_pong_roundtrip `{Externals} (env1 env2 : Env) (a : Agent) :
  sendOk env1 (FPing (randomUint32 env1)) = true →
  now env1 ≠ 0 → now env1 < now env2 →
  listenerCloses env2 (EvPingPong (now env2 - now env1)) = false →
  ∃ a1,
    step env1 Interval_connectivity a
    = Ok (tt, a1, [ASend (FPing (randomUint32 env1)) true])
    ∧ pingTimes a1 !! randomUint32 env1 = Some (now env1)
    ∧ step env2 (Recv (MsgPong (randomUint32 env1))) a1
      = Ok (tt,
            set_pingTimes (delete (randomUint32 env1) (pingTimes a))
              (set_timers
                 (Timers_clearTimeout (ping_name (randomUint32 env1)) (timers a)) a),
            [AFire (EvPingPong (now env2 - now env1))]).
Proof.
  intros Hok Hnz Hlt Hlisten.
  destruct a as [cfg cn ch pr known [touts ints] vr var vs vas att pav pcn pt q lim].
  cbn [step onMessage].
  unfold checkConnectivity, mbind at 1, M_bind at 1.
  rewrite channel_send_eq, Hok. cbn [negb].
  unfold mbind, M_bind, modify, timers_setTimeout, mret, M_ret, modify.
  agent_simpl.
  case_bool_decide as Harm; agent_simpl; eexists; (split; [reflexivity|]);
    agent_simpl; (split; [by rewrite lookup_insert_eq|]).
  all: unfold onPong, mbind, M_bind, timers_clearTimeout, modify, get;
    agent_simpl; rewrite lookup_insert_eq;
    rewrite bool_decide_eq_true_2 by done;
    rewrite bool_decide_eq_true_2 by lia;
    unfold fire, mbind, M_bind, emit; rewrite Hlisten;
    unfold mret, M_ret, set_pingTimes, set_timers, Timers_clearTimeout;
    agent_simpl; rewrite ?delete_insert_eq; reflexivity.
Qed.

Lemma ping_pong_roundtrip_witness :
  ∃ a1,
    step (H := Sample.sample_externals) Sample.env0 Interval_connectivity
      Sample.established = Ok (tt, a1, [ASend (FPing 9%N) true])
    ∧ pingTimes a1 !! 9%N = Some 100000
    ∧ step (H := Sample.sample_externals)
        (mkEnv 100250 (sendOk Sample.env0) (listenerCloses Sample.env0) 9%N 100250
           Sample.genesis (book_get Sample.env0) (book_query Sample.env0) 10%nat)
        (Recv (MsgPong 9%N)) a1
      = Ok (tt,
            set_pingTimes (delete 9%N (pingTimes Sample.established))
              (set_timers
                 (Timers_clearTimeout (ping_name 9%N) (timers Sample.established))
                 Sample.established),
            [AFire (EvPingPong 250)]).
Proof.
  apply (ping_pong_roundtrip (H := Sample.sample_externals) Sample.env0
           (mkEnv 100250 (sendOk Sample.env0) (listenerCloses Sample.env0) 9%N 100250
              Sample.genesis (book_get Sample.env0) (book_query Sample.env0) 10%nat)
           Sample.established).
  - reflexivity.
  - discriminate.
  - reflexivity.
  - reflexivity.
Defined.

(** ** Whole handshakes *)

Lemma run_step_wp `{Externals} env ev rest a tr (Q : Agent * list Action → Prop) :
  enabled a ev = true →
  wp (step env ev) a
    (λ _ a' out, ∃ r, run rest a' (tr ++ out) = Some r ∧ Q r) →
  ∃ r, run ((env, ev) :: rest) a tr = Some r ∧ Q r.
Proof.
  intros Hen Hwp. cbn [run]. rewrite Hen.
  destruct (wp_inv _ _ _ Hwp) as ([] & a' & out & -> & Hr). exact Hr.
Qed.

Lemma with_stored_netAddress_peerId `{Externals} env addr :
  peerId (with_stored_netAddress env addr) = peerId addr.
Proof.
  unfold with_stored_netAddress. destruct (netAddress addr); [done|].
  destruct (book_get env addr) as [stored|]; [|done].
  by destruct (netAddress stored).
Qed.

(** Symbolic execution along the one path the hypotheses leave open:
    [facts] rewrites with them, an observer that closes is ruled out by
    [listens]. *)
Ltac wp_path facts listens :=
  repeat (agent_simpl; bool_decide_closed; cbv beta; facts; agent_simpl;
          lazymatch goal with
          | |- wp (fire _ _) _ _ =>
              let Hl := fresh "Hl" in
              apply wp_fire; intros Hl;
              [exfalso; rewrite listens in Hl; discriminate Hl|clear Hl]
          | |- wp (if _ then _ else _) _ _ => fail
          | |- wp (onVersion _ _) _ _ => unfold onVersion
          | |- wp (onVerAck _ _) _ _ => unfold onVerAck
          | |- _ => wp_step
          end).

(** X9. A clean outbound handshake. On a channel that expects the address
    [remote], with every send succeeding and no observer closing: after
    handshake(), an acceptable version message and an acceptable verack,
    the agent has sent its version, signed the remote's challenge in its
    verack and requested addresses, in this order; observers have seen
    'version' and then 'handshake'; all five handshake flags are set, the
    version and verack timers are gone, the connectivity and announce
    intervals run, and the remote's address is known. The observers of
    'handshake' are handed the agent as it is at the end; those of
    'version' an agent that has received the version and has neither sent
    nor received a verack. *)
Theorem outbound_handshake_completes `{Externals} (env : Env) (cfg : NetworkConfig)
    (remote : PeerAddress) (nonce : list byte) (window : Z)
    (msg : VersionMessage) (ack : VerAckMessage) :
  cooperative env →
  version_acceptable (new_NetworkAgent cfg (Some remote) nonce window) msg = true →
  verack_acceptable (new_NetworkAgent cfg (Some remote) nonce window)
    (with_stored_netAddress env (msg_peerAddress msg)) ack = true →
  let theirs := with_stored_netAddress env (msg_peerAddress msg) in
  let p := Some (mkPeer (msg_version msg) (msg_headHash msg)
                   (timestamp theirs - now env)) in
  ∃ a3 seen,
    run [(env, Call_handshake); (env, Recv (MsgVersion msg));
         (env, Recv (MsgVerAck ack))]
      (new_NetworkAgent cfg (Some remote) nonce window) []
    = Some (a3,
            [ASend (FVersion (cfg_peerAddress cfg) (headHash env) nonce) true;
             ALog "[VERSION]";
             AFire (EvVersion p seen);
             ASend (FVerAck (keyPair_publicKey cfg)
                      (Signature_create (keyPair_privateKey cfg) (keyPair_publicKey cfg)
                         (PeerId_serialize (peerId theirs) ++ msg_challengeNonce msg)))
               true;
             ALog "[VERACK]";
             AFire (EvHandshake p a3);
             ASend (FGetAddr (cfg_protocolMask cfg) (services_accepted cfg)) true])
    ∧ versionSent a3 = true ∧ versionReceived a3 = true
    ∧ verackSent a3 = true ∧ verackReceived a3 = true
    ∧ peerAddressVerified a3 = true
    ∧ peer a3 = p
    ∧ chan_peerAddress (channel a3) = Some theirs
    ∧ timeouts (timers a3) !! "version" = None
    ∧ timeouts (timers a3) !! "verack" = None
    ∧ intervals (timers a3) !! "connectivity"
      = Some NetworkAgent.CONNECTIVITY_CHECK_INTERVAL
    ∧ intervals (timers a3) !! "announce-addr"
      = Some NetworkAgent.ANNOUNCE_ADDR_INTERVAL
    ∧ HashSet_get theirs (knownAddresses a3) = Some theirs
    ∧ versionReceived seen = true ∧ peer seen = p
    ∧ verackSent seen = false ∧ verackReceived seen = false.
Proof.
  intros [Hsend Hlisten]. unfold version_acceptable, verack_acceptable, new_NetworkAgent.
  agent_simpl. rewrite !andb_true_iff.
  intros [[[Hcompat Hgenesis] Hsig] Hexpected] [Hkey Hverify]. cbv zeta.
  pose (theirs := with_stored_netAddress env (msg_peerAddress msg)).
  cut (∃ r,
         run [(env, Call_handshake); (env, Recv (MsgVersion msg));
              (env, Recv (MsgVerAck ack))]
           (new_NetworkAgent cfg (Some remote) nonce window) [] = Some r
         ∧ (λ r : Agent * list Action,
              ∃ seen,
              r.2 = [ASend (FVersion (cfg_peerAddress cfg) (headHash env) nonce) true;
                     ALog "[VERSION]";
                     AFire (EvVersion (Some (mkPeer (msg_version msg) (msg_headHash msg)
                                               (timestamp theirs - now env))) seen);
                     ASend (FVerAck (keyPair_publicKey cfg)
                              (Signature_create (keyPair_privateKey cfg)
                                 (keyPair_publicKey cfg)
                                 (PeerId_serialize (peerId theirs)
                                    ++ msg_challengeNonce msg))) true;
                     ALog "[VERACK]";
                     AFire (EvHandshake (Some (mkPeer (msg_version msg) (msg_headHash msg)
                                                 (timestamp theirs - now env))) r.1);
                     ASend (FGetAddr (cfg_protocolMask cfg) (services_accepted cfg)) true]
              ∧ versionSent r.1 = true ∧ versionReceived r.1 = true
              ∧ verackSent r.1 = true ∧ verackReceived r.1 = true
              ∧ peerAddressVerified r.1 = true
              ∧ peer r.1 = Some (mkPeer (msg_version msg) (msg_headHash msg)
                                   (timestamp theirs - now env))
              ∧ chan_peerAddress (channel r.1) = Some theirs
              ∧ timeouts (timers r.1) !! "version" = None
              ∧ timeouts (timers r.1) !! "verack" = None
              ∧ intervals (timers r.1) !! "connectivity"
                = Some NetworkAgent.CONNECTIVITY_CHECK_INTERVAL
              ∧ intervals (timers r.1) !! "announce-addr"
                = Some NetworkAgent.ANNOUNCE_ADDR_INTERVAL
              ∧ HashSet_get theirs (knownAddresses r.1) = Some theirs
              ∧ versionReceived seen = true
              ∧ peer seen = Some (mkPeer (msg_version msg) (msg_headHash msg)
                                    (timestamp theirs - now env))
              ∧ verackSent seen = false ∧ verackReceived seen = false) r).
  { intros ([a3 tr] & Hrun & seen & Htr & Hrest). cbn [fst snd] in *. subst tr.
    eauto. }
  unfold new_NetworkAgent.
  do 3 (apply run_step_wp; [reflexivity|]; cbn [step onMessage];
        wp_path ltac:(rewrite ?Hsend, ?Hcompat, ?Hgenesis, ?Hsig, ?Hexpected,
                        ?Hkey, ?Hverify) Hlisten).
  eexists. split; [reflexivity|]. cbn [fst snd app]. eexists.
  split; [reflexivity|]. agent_simpl.
  unfold HashSet_get, HashSet_add.
  split_and?; try done; by simplify_map_eq.
Qed.

Lemma Sample_cooperative : cooperative Sample.env0.
Proof. split; reflexivity. Qed.

Lemma outbound_handshake_completes_witness :
  cooperative Sample.env0
  ∧ ∃ a3 tr,
      run (H := Sample.sample_externals) Sample.handshake_run Sample.fresh []
      = Some (a3, tr)
      ∧ verackSent a3 = true ∧ verackReceived a3 = true.
Proof.
  split; [exact Sample_cooperative|].
  destruct (outbound_handshake_completes (H := Sample.sample_externals)
              Sample.env0 Sample.cfg Sample.remote Sample.our_nonce 60000
              (mkVersionMessage 2%N Sample.remote Sample.genesis Sample.genesis
                 Sample.their_nonce)
              (mkVerAckMessage 7%N 15%N) Sample_cooperative)
    as (a3 & seen & Hrun & _ & _ & Hvas & Hvar & _).
  - vm_compute. reflexivity.
  - vm_compute. reflexivity.
  - exists a3. eexists. split; [exact Hrun|]. by split.
Defined.

(** X10. An inbound handshake with deferred verification. On a channel
    that expects no address, with every send succeeding and no observer
    closing: an acceptable version message makes the agent send its own
    version, but no verack, and the remote's address stays unverified; the
    acceptable verack that follows verifies the address, and only then the
    agent sends its verack, fires 'handshake' and requests addresses. The
    observers of 'version' are handed an agent that has received the
    version and not yet sent ours; those of 'handshake' the agent as it is
    at the end. *)
Theorem inbound_handshake_completes `{Externals} (env : Env) (cfg : NetworkConfig)
    (nonce : list byte) (window : Z) (msg : VersionMessage) (ack : VerAckMessage) :
  cooperative env →
  version_acceptable (new_NetworkAgent cfg None nonce window) msg = true →
  verack_acceptable (new_NetworkAgent cfg None nonce window)
    (with_stored_netAddress env (msg_peerAddress msg)) ack = true →
  let theirs := with_stored_netAddress env (msg_peerAddress msg) in
  let p := Some (mkPeer (msg_version msg) (msg_headHash msg)
                   (timestamp theirs - now env)) in
  (∃ a1 seen,
     run [(env, Recv (MsgVersion msg))] (new_NetworkAgent cfg None nonce window) []
     = Some (a1,
             [ALog "[VERSION]";
              AFire (EvVersion p seen);
              ASend (FVersion (cfg_peerAddress cfg) (headHash env) nonce) true])
     ∧ versionReceived a1 = true ∧ versionSent a1 = true
     ∧ peerAddressVerified a1 = false ∧ verackSent a1 = false
     ∧ timeouts (timers a1) !! "verack" = Some (NetworkAgent.HANDSHAKE_TIMEOUT * 2)
     ∧ timeouts (timers a1) !! "version" = None
     ∧ versionReceived seen = true ∧ peer seen = p ∧ versionSent seen = false)
  ∧ (∃ a2 seen,
       run [(env, Recv (MsgVersion msg)); (env, Recv (MsgVerAck ack))]
         (new_NetworkAgent cfg None nonce window) []
       = Some (a2,
               [ALog "[VERSION]";
                AFire (EvVersion p seen);
                ASend (FVersion (cfg_peerAddress cfg) (headHash env) nonce) true;
                ALog "[VERACK]";
                ASend (FVerAck (keyPair_publicKey cfg)
                         (Signature_create (keyPair_privateKey cfg)
                            (keyPair_publicKey cfg)
                            (PeerId_serialize (peerId theirs)
                               ++ msg_challengeNonce msg)))
                  true;
                AFire (EvHandshake p a2);
                ASend (FGetAddr (cfg_protocolMask cfg) (services_accepted cfg)) true])
       ∧ peerAddressVerified a2 = true
       ∧ verackSent a2 = true ∧ verackReceived a2 = true
       ∧ timeouts (timers a2) !! "verack" = None
       ∧ HashSet_get theirs (knownAddresses a2) = Some theirs).
Proof.
  intros [Hsend Hlisten]. unfold version_acceptable, verack_acceptable, new_NetworkAgent.
  agent_simpl. rewrite !andb_true_iff.
  intros [[[Hcompat Hgenesis] Hsig] _] [Hkey Hverify]. cbv zeta.
  pose (theirs := with_stored_netAddress env (msg_peerAddress msg)).
  pose (p := Some (mkPeer (msg_version msg) (msg_headHash msg)
                     (timestamp theirs - now env))).
  split.
  - cut (∃ r,
           run [(env, Recv (MsgVersion msg))]
             (new_NetworkAgent cfg None nonce window) [] = Some r
           ∧ (λ r : Agent * list Action,
                ∃ seen,
                r.2 = [ALog "[VERSION]"; AFire (EvVersion p seen);
                       ASend (FVersion (cfg_peerAddress cfg) (headHash env) nonce) true]
                ∧ versionReceived r.1 = true ∧ versionSent r.1 = true
                ∧ peerAddressVerified r.1 = false ∧ verackSent r.1 = false
                ∧ timeouts (timers r.1) !! "verack"
                  = Some (NetworkAgent.HANDSHAKE_TIMEOUT * 2)
                ∧ timeouts (timers r.1) !! "version" = None
                ∧ versionReceived seen = true ∧ peer seen = p
                ∧ versionSent seen = false) r).
    { intros ([a1 tr] & Hrun & seen & Htr & Hrest). cbn [fst snd] in *. subst tr.
      eauto. }
    unfold new_NetworkAgent.
    apply run_step_wp; [reflexivity|]; cbn [step onMessage];
      wp_path ltac:(rewrite ?Hsend, ?Hcompat, ?Hgenesis, ?Hsig) Hlisten.
    eexists. split; [reflexivity|]. cbn [fst snd app]. eexists.
    split; [reflexivity|]. agent_simpl.
    split_and?; try done; by simplify_map_eq.
  - cut (∃ r,
           run [(env, Recv (MsgVersion msg)); (env, Recv (MsgVerAck ack))]
             (new_NetworkAgent cfg None nonce window) [] = Some r
           ∧ (λ r : Agent * list Action,
                ∃ seen,
                r.2 = [ALog "[VERSION]"; AFire (EvVersion p seen);
                       ASend (FVersion (cfg_peerAddress cfg) (headHash env) nonce) true;
                       ALog "[VERACK]";
                       ASend (FVerAck (keyPair_publicKey cfg)
                                (Signature_create (keyPair_privateKey cfg)
                                   (keyPair_publicKey cfg)
                                   (PeerId_serialize (peerId theirs)
                                      ++ msg_challengeNonce msg))) true;
                       AFire (EvHandshake p r.1);
                       ASend (FGetAddr (cfg_protocolMask cfg) (services_accepted cfg))
                         true]
                ∧ peerAddressVerified r.1 = true
                ∧ verackSent r.1 = true ∧ verackReceived r.1 = true
                ∧ timeouts (timers r.1) !! "verack" = None
                ∧ HashSet_get theirs (knownAddresses r.1) = Some theirs) r).
    { intros ([a2 tr] & Hrun & seen & Htr & Hrest). cbn [fst snd] in *. subst tr.
      eauto. }
    unfold new_NetworkAgent.
    do 2 (apply run_step_wp; [reflexivity|]; cbn [step onMessage];
          wp_path ltac:(rewrite ?Hsend, ?Hcompat, ?Hgenesis, ?Hsig, ?Hkey, ?Hverify)
            Hlisten).
    eexists. split; [reflexivity|]. cbn [fst snd app]. eexists.
    split; [reflexivity|]. agent_simpl.
    unfold HashSet_get, HashSet_add.
    split_and?; try done; by simplify_map_eq.
Qed.

Lemma inbound_handshake_completes_witness :
  cooperative Sample.env0
  ∧ ∃ a2 tr,
      run (H := Sample.sample_externals)
        [(Sample.env0, Recv Sample.their_version); (Sample.env0, Recv Sample.their_verack)]
        (new_NetworkAgent Sample.cfg None Sample.our_nonce 60000) []
      = Some (a2, tr)
      ∧ peerAddressVerified a2 = true ∧ verackSent a2 = true.
Proof.
  split; [exact Sample_cooperative|].
  destruct (inbound_handshake_completes (H := Sample.sample_externals)
              Sample.env0 Sample.cfg Sample.our_nonce 60000
              (mkVersionMessage 2%N Sample.remote Sample.genesis Sample.genesis
                 Sample.their_nonce)
              (mkVerAckMessage 7%N 15%N) Sample_cooperative)
    as (_ & a2 & seen & Hrun & Hpav & Hvas & _).
  - vm_compute. reflexivity.
  - vm_compute. reflexivity.
  - exists a2. eexists. split; [exact Hrun|]. by split.
Defined.

(** ** Further invariants *)

Ltac lookup_eq_simpl :=
  repeat first
    [ rewrite lookup_insert_eq
    | rewrite lookup_insert_ne
        by first [done | apply ping_name_verack | apply ping_name_version]
    | rewrite lookup_delete_eq
    | rewrite lookup_delete_ne
        by first [done | apply ping_name_verack | apply ping_name_version]
    | rewrite lookup_empty ].

Section MoreInvariants.
Context `{Externals}.

Lemma step_watch env ev a :
Inv a → watchdogs_ok a → quiet_ok a → enabled a ev = true →
wp (step env ev) a (watch_post a).
Proof.
destruct a as [cfg cn [cpa cl] pr known [touts ints] vr var vs vas att pav pcn pt [qu st] lim].
unfold watch_post, Inv, flags_ok, pings_ok, known_ok, watchdogs_ok, quiet_ok.
intros [(Hf1 & Hf2 & Hf3) [[Hp1 Hp2] Hk]] Hw [Hq1 Hq2] Hen. agent_simpl.
event_cases ev; cbn [enabled] in Hen;
  try apply bool_decide_eq_true in Hen; agent_simpl.
3: { unfold wp. rewrite relayNow_eq. unfold ThrottledQueue_dequeueMulti.
     agent_simpl. cbv zeta.
     destruct var.
     - destruct (List.filter _ _); agent_simpl; split_and?; try done.
     - destruct (Hq1 eq_refl) as [-> Hann]. rewrite take_nil, drop_nil.
       cbn [List.filter]. agent_simpl. split_and?; try done. }
all: wp_run.
all: inv_simpl; hyp_simpl; cbn [app]; split_and?; intros; hyp_simpl.
all: try done.
all: try (lookup_eq_simpl; done).
all: try (repeat constructor; done).
all: rewrite enqueue_all_stopped; done.
Qed.

Lemma Reachable_watch a tr :
Reachable a tr →
watchdogs_ok a ∧ quiet_ok a
∧ (verackReceived a = false → Forall (λ x, handshake_send x = true) tr).
Proof.
induction 1 as [|a tr env ev a' out Hr (Hw & Hq & Htr) Hen Hstep].
- unfold watchdogs_ok, quiet_ok. cbn. split_and?; done.
- destruct (Reachable_Inv a tr Hr) as (HI & _).
  destruct (wp_inv _ _ _ (step_watch env ev a HI Hw Hq Hen))
    as ([] & a2 & out2 & Heq & Hw' & Hq' & Hout).
  rewrite Hstep in Heq. injection Heq as <- <-.
  split_and?; [done..|]. intros Hvar. apply Forall_app. split; [|by apply Hout].
  apply Htr. destruct (step_total env ev a HI Hen) as (a3 & out3 & Heq & _ & Hf & _).
  rewrite Hstep in Heq. injection Heq as <- <-.
  destruct (verackReceived a); [|done]. destruct (Hf eq_refl). congruence.
Qed.
End MoreInvariants.

(** X11. The handshake is watched. At every reachable state with the
    channel open and our version sent: until the remote's verack has been
    received the verack timer is pending (armed at twice
    HANDSHAKE_TIMEOUT), and its expiry closes the channel with
    VERACK_TIMEOUT; until the remote's version has been received the
    version timer is pending (armed at HANDSHAKE_TIMEOUT), and its expiry
    closes with VERSION_TIMEOUT. An expiry clears every timer. *)
Theorem handshake_is_watched `{Externals} (a : Agent) (tr : list Action) (env : Env) :
  Reachable a tr →
  closed (channel a) = false → versionSent a = true →
  (verackReceived a = false →
     timeouts (timers a) !! "verack" = Some (NetworkAgent.HANDSHAKE_TIMEOUT * 2)
     ∧ enabled a Timeout_verack = true
     ∧ ∃ a', step env Timeout_verack a = Ok (tt, a', [AClose CloseType.VERACK_TIMEOUT])
             ∧ closed (channel a') = true ∧ timers a' = Timers_new)
  ∧ (versionReceived a = false →
       timeouts (timers a) !! "version" = Some NetworkAgent.HANDSHAKE_TIMEOUT
       ∧ enabled a Timeout_version = true
       ∧ ∃ a', step env Timeout_version a = Ok (tt, a', [AClose CloseType.VERSION_TIMEOUT])
               ∧ closed (channel a') = true ∧ timers a' = Timers_new).
Proof.
  intros (Hw & _)%Reachable_watch Hcl Hvs. destruct (Hw Hcl Hvs) as [Hack Hver].
  split.
  - intros Hvar. specialize (Hack Hvar). split; [done|]. split.
    { cbn [enabled]. apply bool_decide_eq_true. by rewrite Hack. }
    cbn [step]. unfold verackTimeout, mbind, M_bind, timers_clearTimeout, modify.
    rewrite channel_close_eq. eexists. split; [reflexivity|].
    agent_simpl. by rewrite Hcl.
  - intros Hvr. specialize (Hver Hvr). split; [done|]. split.
    { cbn [enabled]. apply bool_decide_eq_true. by rewrite Hver. }
    cbn [step]. unfold versionTimeout, mbind, M_bind, timers_clearTimeout, modify.
    rewrite channel_close_eq. eexists. split; [reflexivity|].
    agent_simpl. by rewrite Hcl.
Qed.

Lemma Sample_awaiting_verack_reachable :
  ∃ tr, Reachable (H := Sample.sample_externals) Sample.awaiting_verack tr.
Proof.
  eexists.
  apply (run_Reachable
           [(Sample.env0, Call_handshake); (Sample.env0, Recv Sample.their_version)]
           Sample.fresh []).
  - apply Reachable_new.
  - vm_compute. reflexivity.
Qed.

Lemma handshake_is_watched_witness :
  enabled Sample.awaiting_verack Timeout_verack = true.
Proof.
  destruct Sample_awaiting_verack_reachable as [tr Hr].
  apply (handshake_is_watched (H := Sample.sample_externals) Sample.awaiting_verack tr
           Sample.env0 Hr); vm_compute; reflexivity.
Defined.


(** X13. Once the channel is closed the relay queue is stopped for good: at
    every reachable state with a closed channel the queue cannot fire, so
    nothing is relayed after close. *)
Theorem closed_channel_never_relays `{Externals} (a : Agent) (tr : list Action) :
  Reachable a tr → closed (channel a) = true →
  stopped (addrQueue a) = true ∧ enabled a Queue_fires = false.
Proof.
  intros (_ & [_ Hq] & _)%Reachable_watch Hcl. cbn [enabled].
  rewrite (Hq Hcl). done.
Qed.

Section Relations.
Context `{Externals}.

Lemma HashSet_add_member addr x s :
is_Some (HashSet_get addr s) → is_Some (HashSet_get addr (HashSet_add x s)).
Proof.
unfold HashSet_get, HashSet_add. rewrite lookup_insert_is_Some'. auto.
Qed.

Lemma add_all_keeps addr l s :
is_Some (HashSet_get addr s) → is_Some (HashSet_get addr (add_all l s)).
Proof. intros. apply add_all_member. by left. Qed.

Lemma step_relate env ev a :
Inv a → enabled a ev = true → wp (step env ev) a (relate_post a).
Proof.
destruct a as [cfg cn [cpa cl] pr known [touts ints] vr var vs vas att pav pcn pt [qu st] lim].
unfold relate_post, never_undone, veracks_signed, Inv, flags_ok, pings_ok, known_ok.
intros [(Hf1 & Hf2 & Hf3) [[Hp1 Hp2] Hk]] Hen. agent_simpl.
event_cases ev; cbn [enabled] in Hen;
  try apply bool_decide_eq_true in Hen; agent_simpl.
3: unfold relayNow.
all: wp_run.
all: inv_simpl; hyp_simpl; cbn [app In]; split_and?; intros; hyp_simpl.
all: try done.
all: try lia.
all: try (by apply HashSet_add_member).
all: try (by apply add_all_keeps).
all: try (by apply (add_all_keeps _ _ _)).
all: try (by left).
all: try (right; repeat first [by apply Exists_cons_hd | apply Exists_cons_tl]).
all: try (repeat match goal with
          | Hin : _ ∨ _ |- _ => destruct Hin as [Hin|Hin]
          | Hin : False |- _ => destruct Hin
          | Hin : ASend _ _ = ASend _ _ |- _ => injection Hin as <- <- <-
          | Hin : _ = ASend _ _ |- _ => discriminate Hin
          end; eauto 10).
Qed.

Lemma step_relations env ev a tr a' out :
Reachable a tr → enabled a ev = true → step env ev a = Ok (tt, a', out) →
relate_post a tt a' out.
Proof.
intros (HI & _)%Reachable_Inv Hen Hstep.
destruct (wp_inv _ _ _ (step_relate env ev a HI Hen)) as ([] & a2 & out2 & Heq & Hpost).
rewrite Hstep in Heq. by injection Heq as <- <-.
Qed.
End Relations.

(** X14. What no handler run undoes. From a reachable state, whatever
    happens next: a handshake flag that is set stays set, a closed channel
    stays closed, versionAttempts does not decrease, an address known to
    the peer stays known, and once the remote's version has been received
    the channel's remote address, the remote's challenge nonce and the peer
    handle never change again. *)
Theorem nothing_is_undone `{Externals} (a : Agent) (tr : list Action) (env : Env)
    (ev : Event) (a' : Agent) (out : list Action) :
  Reachable a tr → enabled a ev = true → step env ev a = Ok (tt, a', out) →
  never_undone a a'.
Proof. intros Hr Hen Hstep. by destruct (step_relations env ev a tr a' out Hr Hen Hstep). Qed.

Lemma nothing_is_undone_witness :
  ∃ a' out,
    step (H := Sample.sample_externals) Sample.env0 (Recv Sample.their_verack)
      Sample.awaiting_verack = Ok (tt, a', out)
    ∧ never_undone (H := Sample.sample_externals) Sample.awaiting_verack a'.
Proof.
  destruct Sample_awaiting_verack_reachable as [tr Hr].
  destruct (Reachable_Inv (H := Sample.sample_externals) _ _ Hr) as [HI _].
  destruct (step_total (H := Sample.sample_externals) Sample.env0
              (Recv Sample.their_verack) Sample.awaiting_verack HI eq_refl)
    as (a' & out & Hstep & _).
  exists a', out. split; [exact Hstep|].
  exact (nothing_is_undone (H := Sample.sample_externals) Sample.awaiting_verack tr
           Sample.env0 (Recv Sample.their_verack) a' out Hr eq_refl Hstep).
Defined.

(** X15. Every verack the agent has sent carries its public key and its
    signature over the remote's peer id followed by the challenge nonce of
    the remote's version message, which are the address the channel holds
    and the nonce the agent holds at any later reachable state. *)
Theorem veracks_sign_the_challenge `{Externals} (a : Agent) (tr : list Action) :
  Reachable a tr → veracks_signed a tr.
Proof.
  intros Hr.
  cut (veracks_signed a tr
       ∧ (∀ pk sig ok, In (ASend (FVerAck pk sig) ok) tr → versionReceived a = true)).
  { by intros [? _]. }
  induction Hr as [|a tr env ev a' out Hr [IHs IHv] Hen Hstep].
  - split; intros pk sig ok [].
  - destruct (step_relations env ev a tr a' out Hr Hen Hstep)
      as (Hkeep & Hsigned & _ & _ & Hcfg & Hver).
    destruct Hkeep as (Hvr & _ & _ & _ & _ & _ & _ & _ & Hfixed).
    split.
    + intros pk sig ok [Hin|Hin]%in_app_or; [|by apply Hsigned in Hin].
      destruct (IHs pk sig ok Hin) as (remote & nonce & Hc & Hn & -> & ->).
      destruct (Hfixed (IHv _ _ _ Hin)) as (Hc' & Hn' & _).
      exists remote, nonce. rewrite Hc', Hn', Hcfg. done.
    + intros pk sig ok [Hin|Hin]%in_app_or; [|by eapply Hver].
      apply Hvr. by eapply IHv.
Qed.

Lemma veracks_sign_the_challenge_witness :
  veracks_signed (H := Sample.sample_externals) Sample.established
    Sample.after_handshake.2.
Proof.
  exact (veracks_sign_the_challenge (H := Sample.sample_externals) Sample.established
           Sample.after_handshake.2 Sample_established_reachable).
Defined.

(** X16. Observers see 'version' before 'handshake': in the trace of every
    reachable state, each firing of 'handshake' is preceded by a firing of
    'version'. *)
Theorem version_event_precedes_handshake `{Externals} (a : Agent) (tr : list Action) :
  Reachable a tr →
  ∀ tr1 p agent tr2, tr = tr1 ++ AFire (EvHandshake p agent) :: tr2 →
                     Exists (λ x, is_version_fire x = true) tr1.
Proof.
  intros Hr.
  cut ((versionReceived a = true → Exists (λ x, is_version_fire x = true) tr)
       ∧ ∀ tr1 p agent tr2, tr = tr1 ++ AFire (EvHandshake p agent) :: tr2 →
                            Exists (λ x, is_version_fire x = true) tr1).
  { by intros [_ ?]. }
  induction Hr as [|a tr env ev a' out Hr [IHv IHo] Hen Hstep].
  - split; [done|]. intros [|x tr1] p agent tr2 Heq; discriminate Heq.
  - destruct (step_relations env ev a tr a' out Hr Hen Hstep)
      as (_ & _ & Hnew & Hfire & _).
    split.
    + intros Hv. apply Exists_app. destruct (Hnew Hv) as [Hold|Hex]; auto.
    + intros tr1 p agent tr2 Heq.
      apply List.app_eq_app in Heq as [l [[Htr Hout]|[-> Hout]]].
      * destruct l as [|x l]; cbn [app] in Hout.
        -- rewrite app_nil_r in Htr. subst tr1. apply IHv, Hfire.
           eapply handshake_fires_In. rewrite <- Hout. by left.
        -- injection Hout as <- Hout. by eapply IHo.
      * apply Exists_app. left. apply IHv, Hfire.
        eapply handshake_fires_In. rewrite Hout. apply in_or_app. right. by left.
Qed.

Lemma version_event_precedes_handshake_witness :
  Exists (λ x, is_version_fire x = true) (take 5 Sample.after_handshake.2).
Proof.
  apply (version_event_precedes_handshake (H := Sample.sample_externals)
           Sample.established Sample.after_handshake.2 Sample_established_reachable
           (take 5 Sample.after_handshake.2)
           (peer Sample.established) Sample.established
           (drop 6 Sample.after_handshake.2)).
  vm_compute. reflexivity.
Defined.

Section Inbound.
Context `{Externals}.

Lemma step_inbound env ev a :
Inv a → inbound_ok a → enabled a ev = true →
wp (step env ev) a
  (λ _ a' out,
     inbound_ok a'
     ∧ ∀ pk sig ok, In (ASend (FVerAck pk sig) ok) out → verackReceived a' = true).
Proof.
destruct a as [cfg cn [cpa cl] pr known [touts ints] vr var vs vas att pav pcn pt [qu st] lim].
unfold inbound_ok, Inv, flags_ok, pings_ok, known_ok.
intros [(Hf1 & Hf2 & Hf3) [[Hp1 Hp2] Hk]] [Hin1 Hin2] Hen. agent_simpl.
event_cases ev; cbn [enabled] in Hen;
  try apply bool_decide_eq_true in Hen; agent_simpl.
3: unfold relayNow.
all: wp_run.
all: inv_simpl; hyp_simpl; cbn [app In]; split_and?; intros; hyp_simpl.
all: try done.
all: try (repeat match goal with
          | Hin : _ ∨ _ |- _ => destruct Hin as [Hin|Hin]
          | Hin : False |- _ => destruct Hin
          | Hin : _ = ASend _ _ |- _ => discriminate Hin
          end; done).
Qed.

Lemma run_inbound evs a tr a' tr' :
Inv a → inbound_ok a →
(∀ pk sig ok, In (ASend (FVerAck pk sig) ok) tr → verackReceived a = true) →
run evs a tr = Some (a', tr') →
inbound_ok a'
∧ (∀ pk sig ok, In (ASend (FVerAck pk sig) ok) tr' → verackReceived a' = true).
Proof.
revert a tr. induction evs as [|[env ev] evs IH]; intros a tr HI Hin Htr; cbn [run].
- by intros [= <- <-].
- destruct (enabled a ev) eqn:Hen; [|done].
  destruct (step_total env ev a HI Hen) as (a1 & o1 & Hstep & HI1 & Hfires).
  destruct (wp_inv _ _ _ (step_inbound env ev a HI Hin Hen))
    as ([] & a2 & o2 & Heq & Hin1 & Hout).
  rewrite Hstep in Heq. injection Heq as <- <-. rewrite Hstep.
  apply IH; [done..|].
  intros pk sig ok [Hold|Hnew]%in_app_or; [|by eapply Hout].
  destruct Hfires as [Hkeep _]. apply Hkeep. by eapply Htr.
Qed.
End Inbound.

(** X17. On an inbound connection the agent answers the challenge only
    to a peer that has proved its identity: starting on a channel that
    expects no address, after any sequence of events, if the agent has sent
    a verack, or holds the remote's address as verified, then it has
    received the remote's verack (verackReceived is set). *)
Theorem inbound_verack_needs_proof `{Externals} (cfg : NetworkConfig)
    (nonce : list byte) (window : Z) (evs : list (Env * Event))
    (a : Agent) (tr : list Action) :
  run evs (new_NetworkAgent cfg None nonce window) [] = Some (a, tr) →
  (peerAddressVerified a = true → verackReceived a = true)
  ∧ (verackSent a = true → verackReceived a = true)
  ∧ (∀ pk sig ok, In (ASend (FVerAck pk sig) ok) tr → verackReceived a = true).
Proof.
  intros Hrun.
  assert (Hr : Reachable a tr).
  { eapply run_Reachable; [apply Reachable_new|exact Hrun]. }
  destruct (Reachable_Inv a tr Hr) as ([(_ & Hsent & _) _] & _).
  destruct (run_inbound evs _ [] a tr (Inv_new cfg None nonce window)) as [[_ Hver] Htr];
    [by split|by intros ? ? ? []|done|].
  split_and?; [done| |done]. intros Hvas. by apply Hver, Hsent.
Qed.

Lemma inbound_verack_needs_proof_witness :
  ∃ a tr,
    run (H := Sample.sample_externals)
      [(Sample.env0, Recv Sample.their_version); (Sample.env0, Recv Sample.their_verack)]
      (new_NetworkAgent Sample.cfg None Sample.our_nonce 60000) [] = Some (a, tr)
    ∧ (verackSent a = true → verackReceived a = true).
Proof.
  destruct (run (H := Sample.sample_externals)
              [(Sample.env0, Recv Sample.their_version);
               (Sample.env0, Recv Sample.their_verack)]
              (new_NetworkAgent Sample.cfg None Sample.our_nonce 60000) [])
    as [[a tr]|] eqn:Hrun; [|vm_compute in Hrun; discriminate Hrun].
  exists a, tr. split; [reflexivity|].
  apply (inbound_verack_needs_proof (H := Sample.sample_externals) Sample.cfg
           Sample.our_nonce 60000 _ a tr Hrun).
Defined.


Lemma closed_channel_never_relays_witness :
  ∃ a tr,
    run (H := Sample.sample_externals)
      (Sample.handshake_run ++ [(Sample.env0, Channel_closes)]) Sample.fresh []
    = Some (a, tr)
    ∧ enabled a Queue_fires = false.
Proof.
  destruct (run (H := Sample.sample_externals)
              (Sample.handshake_run ++ [(Sample.env0, Channel_closes)]) Sample.fresh [])
    as [[a tr]|] eqn:Hrun; [|vm_compute in Hrun; discriminate Hrun].
  exists a, tr. split; [reflexivity|].
  apply (closed_channel_never_relays (H := Sample.sample_externals) a tr).
  - eapply run_Reachable; [apply Reachable_new|exact Hrun].
  - vm_compute in Hrun. injection Hrun as <- _. reflexivity.
Defined.

(** ** Close, repeated handshake calls, ping timeout *)

(** X18. [_onClose]: when an open channel closes, every timer and interval
    is cleared and the relay queue is stopped: in the state the close
    leaves, no timer, interval or queue callback is pending; nothing else
    of the agent changes and nothing is sent. A second close right after
    changes nothing. *)
Theorem close_clears_timers_and_queue `{Externals} (env : Env) (a : Agent) :
  closed (channel a) = false →
  ∃ a',
    step env Channel_closes a = Ok (tt, a', [])
    ∧ a' = set_addrQueue (ThrottledQueue_stop (addrQueue a))
             (set_timers Timers_new
                (set_channel (mkChannel (chan_peerAddress (channel a)) true) a))
    ∧ enabled a' Queue_fires = false
    ∧ enabled a' Timeout_version = false
    ∧ enabled a' Timeout_verack = false
    ∧ (∀ nonce, enabled a' (Timeout_ping nonce) = false)
    ∧ enabled a' Interval_connectivity = false
    ∧ enabled a' Interval_announce_addr = false
    ∧ (∀ env', step env' Channel_closes a' = Ok (tt, a', [])).
Proof.
  destruct a as [cfg cn [cpa cl] pr known [touts ints] vr var vs vas att pav pcn pt [qu st] lim].
  cbn [channel closed]. intros ->. eexists. cbn [step].
  split; [apply channel_closes_eq|]. unfold closed_state; agent_simpl.
  split; [reflexivity|]. cbn [enabled]. agent_simpl.
  split_and?; try done; intros; by rewrite ?lookup_empty.
Qed.

Lemma close_clears_timers_and_queue_witness :
  ∃ a',
    step (H := Sample.sample_externals) Sample.env0 Channel_closes Sample.established
    = Ok (tt, a', [])
    ∧ enabled a' Interval_connectivity = false.
Proof.
  destruct (close_clears_timers_and_queue (H := Sample.sample_externals) Sample.env0
              Sample.established)
    as (a' & Hstep & _ & _ & _ & _ & _ & Hc & _); [reflexivity|].
  exists a'. by split.
Defined.

(** X19. handshake() is idempotent once it has succeeded: at a reachable
    state with our version not yet sent, a call whose version send succeeds
    sets versionSent and arms the verack timer at twice HANDSHAKE_TIMEOUT,
    and every later call changes nothing and sends nothing. *)
Theorem handshake_is_idempotent `{Externals} (a : Agent) (tr : list Action) (env : Env) :
  Reachable a tr →
  versionSent a = false →
  sendOk env (FVersion (cfg_peerAddress (networkConfig a)) (headHash env)
                (challengeNonce a)) = true →
  ∃ a1 out,
    step env Call_handshake a = Ok (tt, a1, out)
    ∧ versionSent a1 = true
    ∧ timeouts (timers a1) !! "verack" = Some (NetworkAgent.HANDSHAKE_TIMEOUT * 2)
    ∧ ∀ env', step env' Call_handshake a1 = Ok (tt, a1, []).
Proof.
  intros (HI & _)%Reachable_Inv Hvs Hok.
  cut (wp (step env Call_handshake) a
         (λ _ a1 out,
            versionSent a1 = true
            ∧ timeouts (timers a1) !! "verack"
              = Some (NetworkAgent.HANDSHAKE_TIMEOUT * 2))).
  { intros ([] & a1 & out & Hstep & Hvs1 & Htimer)%wp_inv.
    exists a1, out. split_and?; [done..|]. intros env'. cbn [step].
    unfold handshake, mbind, M_bind, get. by rewrite Hvs1. }
  destruct a as [cfg cn [cpa cl] pr known [touts ints] vr var vs vas att pav pcn pt [qu st] lim].
  unfold Inv, flags_ok in HI. destruct HI as [(Hf1 & Hf2 & Hf3) _].
  agent_simpl. subst vs. cbn [step].
  wp_path ltac:(rewrite ?Hok) Hok.
  all: repeat (wp_run; inv_simpl; hyp_simpl).
  all: split; [done|by lookup_eq_simpl].
Qed.

Lemma handshake_is_idempotent_witness :
  ∃ a1 out,
    step (H := Sample.sample_externals) Sample.env0 Call_handshake Sample.fresh
    = Ok (tt, a1, out)
    ∧ step (H := Sample.sample_externals) Sample.env_fail Call_handshake a1
      = Ok (tt, a1, []).
Proof.
  destruct (handshake_is_idempotent (H := Sample.sample_externals) Sample.fresh []
              Sample.env0)
    as (a1 & out & Hstep & _ & _ & Hagain).
  - apply Reachable_new.
  - reflexivity.
  - reflexivity.
  - exists a1, out. split; [exact Hstep|apply Hagain].
Defined.

(** X20. A ping that is not answered: a connectivity check whose ping is
    sent while the channel's last message is older than
    CONNECTIVITY_CHECK_INTERVAL arms the timer of its nonce at PING_TIMEOUT;
    the expiry of that timer forgets the nonce and closes the channel with
    PING_TIMEOUT, clearing every timer of an open channel. *)
Theorem unanswered_ping_closes `{Externals} (env1 env2 : Env) (a : Agent) :
  sendOk env1 (FPing (randomUint32 env1)) = true →
  lastMessageReceivedAt env1 < now env1 - NetworkAgent.CONNECTIVITY_CHECK_INTERVAL →
  closed (channel a) = false →
  ∃ a1 a2,
    step env1 Interval_connectivity a
    = Ok (tt, a1, [ASend (FPing (randomUint32 env1)) true])
    ∧ timeouts (timers a1) !! ping_name (randomUint32 env1)
      = Some NetworkAgent.PING_TIMEOUT
    ∧ enabled a1 (Timeout_ping (randomUint32 env1)) = true
    ∧ step env2 (Timeout_ping (randomUint32 env1)) a1
      = Ok (tt, a2, [AClose CloseType.PING_TIMEOUT])
    ∧ pingTimes a2 = delete (randomUint32 env1) (pingTimes a)
    ∧ closed (channel a2) = true
    ∧ timers a2 = Timers_new.
Proof.
  intros Hok Hold Hcl.
  destruct a as [cfg cn [cpa cl] pr known [touts ints] vr var vs vas att pav pcn pt [qu st] lim].
  cbn [channel closed] in Hcl. subst cl. cbn [step].
  unfold checkConnectivity, mbind at 1, M_bind at 1.
  rewrite channel_send_eq, Hok. cbn [negb].
  unfold mbind, M_bind, modify, timers_setTimeout, modify.
  rewrite bool_decide_eq_true_2 by done. agent_simpl.
  eexists _, _. split; [reflexivity|]. agent_simpl.
  split; [by rewrite lookup_insert_eq|].
  split; [cbn [enabled]; agent_simpl; apply bool_decide_eq_true;
          by rewrite lookup_insert_eq|].
  unfold pingTimeout, mbind, M_bind, timers_clearTimeout, modify.
  rewrite channel_close_eq. split; [reflexivity|]. agent_simpl.
  by rewrite delete_insert_eq.
Qed.

Lemma unanswered_ping_closes_witness :
  ∃ a1 a2,
    step (H := Sample.sample_externals)
      (mkEnv 200000 (sendOk Sample.env0) (listenerCloses Sample.env0) 9%N 100000
         Sample.genesis (book_get Sample.env0) (book_query Sample.env0) 10%nat)
      Interval_connectivity Sample.established
    = Ok (tt, a1, [ASend (FPing 9%N) true])
    ∧ step (H := Sample.sample_externals) Sample.env0 (Timeout_ping 9%N) a1
      = Ok (tt, a2, [AClose CloseType.PING_TIMEOUT]).
Proof.
  destruct (unanswered_ping_closes (H := Sample.sample_externals)
              (mkEnv 200000 (sendOk Sample.env0) (listenerCloses Sample.env0) 9%N 100000
                 Sample.genesis (book_get Sample.env0) (book_query Sample.env0) 10%nat)
              Sample.env0 Sample.established)
    as (a1 & a2 & H1 & _ & _ & H2 & _); [reflexivity..|].
  exists a1, a2. by split.
Defined.
